(** * Edge TTS bridge: [server/src/scripts/tts_bridge.py]

    A shallow embedding of the bridge script and of the parts of the Python
    runtime it calls ([argparse], [bytearray.extend], [base64.b64encode],
    [json.dumps], [print], [sys.exit]), followed by the properties of the
    script's observable contract: what it writes on standard output and on
    standard error, and the status it exits with. *)

From Stdlib Require Import List ZArith NArith Lia Bool Ascii.
From Stdlib Require String.
Import String.StringSyntax.
Delimit Scope string_scope with string.
From Stdlib Require Import Strings.Byte.
From Stdlib Require Decimal DecimalFacts DecimalN DecimalPos DecimalZ.
Import ListNotations.

Local Open Scope N_scope.
Local Open Scope list_scope.

(** ** Text

    A Python [str] is a sequence of Unicode code points.  Literals of the
    script are written [u "..."]. *)

Definition pystr := list N.

Definition u (s : String.string) : pystr :=
  map N_of_ascii (String.list_ascii_of_string s).
Arguments u s%_string.

Definition pystr_eqb (a b : pystr) : bool :=
  if list_eq_dec N.eq_dec a b then true else false.

Definition newline : pystr := [10].

Definition is_nil {A} (l : list A) : bool :=
  match l with [] => true | _ => false end.

(** ** [base64.b64encode]

    The standard alphabet of RFC 4648 with [=] padding: three bytes make one
    24-bit group, cut into four 6-bit indices. *)

Module Base64.

Definition alphabet : pystr :=
  Eval cbv in
    u "ABCDEFGHIJKLMNOPQRSTUVWXYZabcdefghijklmnopqrstuvwxyz0123456789+/".

Definition pad : N := 61.

Definition b64char (i : N) : N := nth (N.to_nat i) alphabet pad.

Definition group3 (a b c : byte) : N :=
  Byte.to_N a * 65536 + Byte.to_N b * 256 + Byte.to_N c.

Fixpoint b64encode (bs : list byte) : pystr :=
  match bs with
  | [] => []
  | [a] =>
      let n := group3 a x00 x00 in
      [b64char (n / 262144); b64char ((n / 4096) mod 64); pad; pad]
  | [a; b] =>
      let n := group3 a b x00 in
      [b64char (n / 262144); b64char ((n / 4096) mod 64);
       b64char ((n / 64) mod 64); pad]
  | a :: b :: c :: rest =>
      let n := group3 a b c in
      b64char (n / 262144) :: b64char ((n / 4096) mod 64)
        :: b64char ((n / 64) mod 64) :: b64char (n mod 64)
        :: b64encode rest
  end.

(** The decoder a consumer of the document applies.  It is strict: input is
    read four characters at a time, every character must belong to the
    alphabet, and padding may only close the last group. *)

Fixpoint index_of (c : N) (l : list N) (i : N) : option N :=
  match l with
  | [] => None
  | x :: r => if c =? x then Some i else index_of c r (i + 1)
  end.

Definition b64val (c : N) : option N := index_of c alphabet 0.

Definition byte_of_N (n : N) : byte :=
  match Byte.of_N (n mod 256) with
  | Some b => b
  | None => x00
  end.

Fixpoint b64decode (s : pystr) : option (list byte) :=
  match s with
  | [] => Some []
  | c0 :: c1 :: c2 :: c3 :: rest =>
      match b64val c0, b64val c1 with
      | Some s0, Some s1 =>
          if c2 =? pad then
            if (c3 =? pad) && is_nil rest
            then Some [byte_of_N ((s0 * 64 + s1) / 16)]
            else None
          else
            match b64val c2 with
            | Some s2 =>
                let m := (s0 * 64 + s1) * 64 + s2 in
                if c3 =? pad then
                  if is_nil rest
                  then Some [byte_of_N (m / 1024); byte_of_N (m / 4)]
                  else None
                else
                  match b64val c3, b64decode rest with
                  | Some s3, Some bs =>
                      let n := m * 64 + s3 in
                      Some (byte_of_N (n / 65536) :: byte_of_N (n / 256)
                              :: byte_of_N n :: bs)
                  | _, _ => None
                  end
            | None => None
            end
      | _, _ => None
      end
  | _ => None
  end.

End Base64.


(** ** [json.dumps]

    The values the encoder can write, the text it writes for them with its
    default settings ([ensure_ascii=True], separators [", "] and [": "]),
    and a reader of JSON text used to say what an emitted document
    contains. *)

Module Json.

#[local] Set Warnings "-register-all".

Inductive json :=
| JString (s : pystr)
| JNumber (z : Z)
| JArray (l : list json)
| JObject (m : list (pystr * json)).

(** *** Strings: [json.encoder.py_encode_basestring_ascii] *)

Definition hexdigits : pystr := Eval cbv in u "0123456789abcdef".

Definition hexdigit (d : N) : N := nth (N.to_nat d) hexdigits 48.

(** ['\\u{0:04x}'.format(n)], for [n < 0x10000]. *)
Definition u_escape (n : N) : pystr :=
  [92; 117; hexdigit (n / 4096); hexdigit ((n / 256) mod 16);
   hexdigit ((n / 16) mod 16); hexdigit (n mod 16)].

(** [ESCAPE_DCT]: backslash, quote, and the five control characters that
    have a short form. *)
Definition ESCAPE_DCT (c : N) : option pystr :=
  if c =? 92 then Some [92; 92]
  else if c =? 34 then Some [92; 34]
  else if c =? 8 then Some [92; 98]
  else if c =? 12 then Some [92; 102]
  else if c =? 10 then Some [92; 110]
  else if c =? 13 then Some [92; 114]
  else if c =? 9 then Some [92; 116]
  else None.

Definition high_surrogate (c : N) : N :=
  N.lor 0xd800 (N.land (N.shiftr (c - 0x10000) 10) 0x3ff).

Definition low_surrogate (c : N) : N :=
  N.lor 0xdc00 (N.land (c - 0x10000) 0x3ff).

Definition replace (c : N) : pystr :=
  match ESCAPE_DCT c with
  | Some e => e
  | None =>
      if c <? 0x10000 then u_escape c
      else u_escape (high_surrogate c) ++ u_escape (low_surrogate c)
  end.

(** The pattern [ESCAPE_ASCII]: a backslash, a quote, or anything outside
    the range from space to tilde must be replaced. *)
Definition ESCAPE_ASCII (c : N) : bool :=
  (c =? 92) || (c =? 34) || negb ((32 <=? c) && (c <=? 126)).

Definition encode_char (c : N) : pystr :=
  if ESCAPE_ASCII c then replace c else [c].

Definition encode_basestring_ascii (s : pystr) : pystr :=
  [34] ++ flat_map encode_char s ++ [34].

(** *** Integers: [int.__repr__] *)

Fixpoint digits (d : Decimal.uint) : pystr :=
  match d with
  | Decimal.Nil => []
  | Decimal.D0 r => 48 :: digits r
  | Decimal.D1 r => 49 :: digits r
  | Decimal.D2 r => 50 :: digits r
  | Decimal.D3 r => 51 :: digits r
  | Decimal.D4 r => 52 :: digits r
  | Decimal.D5 r => 53 :: digits r
  | Decimal.D6 r => 54 :: digits r
  | Decimal.D7 r => 55 :: digits r
  | Decimal.D8 r => 56 :: digits r
  | Decimal.D9 r => 57 :: digits r
  end.

Definition int_repr (z : Z) : pystr :=
  match Z.to_int z with
  | Decimal.Pos d => digits d
  | Decimal.Neg d => 45 :: digits d
  end.

(** *** Documents *)

Definition item_separator : pystr := [44; 32].
Definition key_separator : pystr := [58; 32].

Fixpoint join (parts : list pystr) : pystr :=
  match parts with
  | [] => []
  | [x] => x
  | x :: r => x ++ item_separator ++ join r
  end.

Fixpoint encode (j : json) : pystr :=
  match j with
  | JString s => encode_basestring_ascii s
  | JNumber z => int_repr z
  | JArray l => [91] ++ join (map encode l) ++ [93]
  | JObject m =>
      [123]
        ++ join (map (fun kv =>
                        match kv with
                        | (k, v) =>
                            encode_basestring_ascii k ++ key_separator ++ encode v
                        end) m)
        ++ [125]
  end.

(** *** Reading JSON text back

    A reader for the grammar of RFC 8259 restricted to strings, integers,
    arrays and objects.  A string it returns is the sequence of UTF-16 code
    units the text denotes, which is what a [\uXXXX] escape stands for. *)

Definition is_ws (c : N) : bool :=
  (c =? 32) || (c =? 9) || (c =? 10) || (c =? 13).

Fixpoint skip_ws (s : pystr) : pystr :=
  match s with
  | c :: r => if is_ws c then skip_ws r else s
  | [] => []
  end.

Definition hexval (c : N) : option N :=
  if (48 <=? c) && (c <=? 57) then Some (c - 48)
  else if (97 <=? c) && (c <=? 102) then Some (c - 87)
  else if (65 <=? c) && (c <=? 70) then Some (c - 55)
  else None.

Definition unescape (e : N) : option N :=
  if e =? 34 then Some 34
  else if e =? 92 then Some 92
  else if e =? 47 then Some 47
  else if e =? 98 then Some 8
  else if e =? 102 then Some 12
  else if e =? 110 then Some 10
  else if e =? 114 then Some 13
  else if e =? 116 then Some 9
  else None.

(** The characters of a string, after its opening quote, up to and
    including the closing one. *)
Fixpoint parse_chars (s : pystr) : option (pystr * pystr) :=
  match s with
  | [] => None
  | c :: r =>
      if c =? 34 then Some ([], r)
      else if c =? 92 then
        match r with
        | [] => None
        | e :: r1 =>
            if e =? 117 then
              match r1 with
              | h3 :: h2 :: h1 :: h0 :: r2 =>
                  match hexval h3, hexval h2, hexval h1, hexval h0,
                        parse_chars r2 with
                  | Some a, Some b, Some c', Some d, Some (t, rest) =>
                      Some ((((a * 16 + b) * 16 + c') * 16 + d) :: t, rest)
                  | _, _, _, _, _ => None
                  end
              | _ => None
              end
            else
              match unescape e, parse_chars r1 with
              | Some x, Some (t, rest) => Some (x :: t, rest)
              | _, _ => None
              end
        end
      else if c <? 32 then None
      else
        match parse_chars r with
        | Some (t, rest) => Some (c :: t, rest)
        | None => None
        end
  end.

Definition digit_of (c : N) : option (Decimal.uint -> Decimal.uint) :=
  if c =? 48 then Some Decimal.D0
  else if c =? 49 then Some Decimal.D1
  else if c =? 50 then Some Decimal.D2
  else if c =? 51 then Some Decimal.D3
  else if c =? 52 then Some Decimal.D4
  else if c =? 53 then Some Decimal.D5
  else if c =? 54 then Some Decimal.D6
  else if c =? 55 then Some Decimal.D7
  else if c =? 56 then Some Decimal.D8
  else if c =? 57 then Some Decimal.D9
  else None.

Fixpoint parse_digits (s : pystr) : Decimal.uint * pystr :=
  match s with
  | [] => (Decimal.Nil, [])
  | c :: r =>
      match digit_of c with
      | Some D => let (d, rest) := parse_digits r in (D d, rest)
      | None => (Decimal.Nil, s)
      end
  end.

(** [0] or a digit sequence without a leading zero. *)
Definition canonical (d : Decimal.uint) : bool :=
  match d with
  | Decimal.Nil => false
  | _ => if Decimal.uint_eq_dec (Decimal.unorm d) d then true else false
  end.

Definition parse_number (s : pystr) : option (json * pystr) :=
  match s with
  | [] => None
  | c :: r =>
      if c =? 45 then
        let (d, rest) := parse_digits r in
        if canonical d then Some (JNumber (- Z.of_uint d), rest) else None
      else
        let (d, rest) := parse_digits s in
        if canonical d then Some (JNumber (Z.of_uint d), rest) else None
  end.

Definition parser (A : Type) := pystr -> option (A * pystr).

(** What follows the first element of an array: [, value] any number of
    times, then [\]]. *)
Fixpoint parse_elements (value : parser json) (fuel : nat) (s : pystr)
  : option (list json * pystr) :=
  match fuel with
  | O => None
  | S fuel' =>
      match skip_ws s with
      | [] => None
      | c :: r =>
          if c =? 93 then Some ([], r)
          else if c =? 44 then
            match value r with
            | Some (x, r1) =>
                match parse_elements value fuel' r1 with
                | Some (xs, rest) => Some (x :: xs, rest)
                | None => None
                end
            | None => None
            end
          else None
      end
  end.

(** One member of an object: a string, a colon, a value. *)
Definition parse_member (value : parser json) (s : pystr)
  : option ((pystr * json) * pystr) :=
  match skip_ws s with
  | [] => None
  | q :: r =>
      if q =? 34 then
        match parse_chars r with
        | Some (k, r1) =>
            match skip_ws r1 with
            | [] => None
            | c :: r2 =>
                if c =? 58 then
                  match value r2 with
                  | Some (v, rest) => Some ((k, v), rest)
                  | None => None
                  end
                else None
            end
        | None => None
        end
      else None
  end.

Fixpoint parse_members (value : parser json) (fuel : nat) (s : pystr)
  : option (list (pystr * json) * pystr) :=
  match fuel with
  | O => None
  | S fuel' =>
      match skip_ws s with
      | [] => None
      | c :: r =>
          if c =? 125 then Some ([], r)
          else if c =? 44 then
            match parse_member value r with
            | Some (kv, r1) =>
                match parse_members value fuel' r1 with
                | Some (kvs, rest) => Some (kv :: kvs, rest)
                | None => None
                end
            | None => None
            end
          else None
      end
  end.

Fixpoint parse_value (fuel : nat) (s : pystr) : option (json * pystr) :=
  match fuel with
  | O => None
  | S fuel' =>
      match skip_ws s with
      | [] => None
      | c :: r =>
          if c =? 34 then
            match parse_chars r with
            | Some (t, rest) => Some (JString t, rest)
            | None => None
            end
          else if c =? 91 then
            match skip_ws r with
            | [] => None
            | c' :: rest =>
                if c' =? 93 then Some (JArray [], rest)
                else
                  match parse_value fuel' r with
                  | Some (x, r1) =>
                      match parse_elements (parse_value fuel') fuel' r1 with
                      | Some (xs, rest') => Some (JArray (x :: xs), rest')
                      | None => None
                      end
                  | None => None
                  end
            end
          else if c =? 123 then
            match skip_ws r with
            | [] => None
            | c' :: rest =>
                if c' =? 125 then Some (JObject [], rest)
                else
                  match parse_member (parse_value fuel') r with
                  | Some (kv, r1) =>
                      match parse_members (parse_value fuel') fuel' r1 with
                      | Some (kvs, rest') => Some (JObject (kv :: kvs), rest')
                      | None => None
                      end
                  | None => None
                  end
            end
          else parse_number (c :: r)
      end
  end.

(** A JSON text is one value, with nothing but white space around it. *)
Definition loads (s : pystr) : option json :=
  match parse_value (S (List.length s)) s with
  | Some (j, rest) => if is_nil (skip_ws rest) then Some j else None
  | None => None
  end.

(** The UTF-16 code units of a Python string: a code point beyond the basic
    plane is a surrogate pair. *)
Definition utf16_units (c : N) : pystr :=
  if c <? 0x10000 then [c] else [high_surrogate c; low_surrogate c].

Definition utf16 (s : pystr) : pystr := flat_map utf16_units s.

(** Back from code units to code points: a high surrogate followed by a low
    one makes one code point.  On text made of Unicode scalar values this
    undoes [utf16] (lemma [utf16_decode_utf16]): nothing of a string is lost
    in the emitted text. *)
Definition is_high (w : N) : bool := (0xd800 <=? w) && (w <? 0xdc00).
Definition is_low (w : N) : bool := (0xdc00 <=? w) && (w <? 0xe000).

Fixpoint utf16_decode (w : pystr) : pystr :=
  match w with
  | [] => []
  | hi :: t =>
      match t with
      | [] => [hi]
      | lo :: r =>
          if is_high hi && is_low lo
          then (0x10000 + (hi - 0xd800) * 1024 + (lo - 0xdc00)) :: utf16_decode r
          else hi :: utf16_decode t
      end
  end.

Definition scalar_value (c : N) : Prop :=
  c < 0xd800 \/ (0xe000 <= c /\ c < 0x110000).

Fixpoint utf16_json (j : json) : json :=
  match j with
  | JString s => JString (utf16 s)
  | JNumber z => JNumber z
  | JArray l => JArray (map utf16_json l)
  | JObject m =>
      JObject (map (fun kv => match kv with
                              | (k, v) => (utf16 k, utf16_json v)
                              end) m)
  end.

(** The number of values in a document, and text that can follow a number
    without being read as one more digit of it. *)
Fixpoint size (j : json) : nat :=
  match j with
  | JString _ => 1
  | JNumber _ => 1
  | JArray l => S (list_sum (map size l))
  | JObject m =>
      S (list_sum (map (fun kv => match kv with (_, v) => size v end) m))
  end.

Definition delimited (s : pystr) : Prop :=
  match s with
  | [] => True
  | c :: _ => digit_of c = None
  end.

(** The text of an array after its first element, of a member, and of an
    object after its first member. *)
Definition tail_items (l : list json) : pystr :=
  flat_map (fun y => item_separator ++ encode y) l.

Definition encode_member (kv : pystr * json) : pystr :=
  encode_basestring_ascii (fst kv) ++ key_separator ++ encode (snd kv).

Definition tail_members (m : list (pystr * json)) : pystr :=
  flat_map (fun kv => item_separator ++ encode_member kv) m.

(** Every value starts with a quote, a bracket, a brace, a minus sign or a
    digit. *)
Definition starts_value (c : N) : Prop :=
  c = 34 \/ c = 91 \/ c = 123 \/ c = 45 \/ 48 <= c <= 57.

(** A reader of values reads [x] back after a separator. *)
Definition reads (value : parser json) (x : json) : Prop :=
  forall R, delimited R -> value (32 :: encode x ++ R) = Some (utf16_json x, R).

Fixpoint lookup (k : pystr) (m : list (pystr * json)) : option json :=
  match m with
  | [] => None
  | (k', v) :: r => if pystr_eqb k' k then Some v else lookup k r
  end.

Definition keys (j : json) : list pystr :=
  match j with
  | JObject m => map fst m
  | _ => []
  end.

Definition field (k : pystr) (j : json) : option json :=
  match j with
  | JObject m => lookup k m
  | _ => None
  end.

End Json.

(** ** Python values and exceptions *)

(** What a field of a stream chunk holds.  The chunks of the collaborator
    are dictionaries whose values are strings, integers and, for the audio
    payload, bytes (source line 35 gives the word-boundary structure). *)
Inductive pyval :=
| PyStr (s : pystr)
| PyInt (z : Z)
| PyBytes (b : list byte).

(** A [dict] keeps its keys in insertion order, and [json.dumps] writes them
    in that order. *)
Definition pydict := list (pystr * pyval).

(** An exception, as far as the script looks at it: its class and the text
    [str(e)].  The exceptions of the model are instances of [Exception],
    the faults that the handler of source line 47 catches. *)
Record exn := Exception { exn_class : pystr; exn_str : pystr }.

Inductive result (A : Type) :=
| Ok (a : A)
| Raise (e : exn).
Arguments Ok {A} a.
Arguments Raise {A} e.

Definition bind {A B} (r : result A) (k : A -> result B) : result B :=
  match r with
  | Ok a => k a
  | Raise e => Raise e
  end.

Notation "x <- r ;; k" := (bind r (fun x => k))
  (at level 61, r at next level, right associativity).

(** [str(KeyError(key))] is [repr(key)]; the keys the script asks for are
    plain words, whose [repr] is the word between single quotes. *)
Definition KeyError (key : pystr) : exn :=
  Exception (u "KeyError") ([39] ++ key ++ [39]).

Definition TypeError (message : pystr) : exn :=
  Exception (u "TypeError") message.

Fixpoint dict_get (d : pydict) (key : pystr) : option pyval :=
  match d with
  | [] => None
  | (k, v) :: r => if pystr_eqb k key then Some v else dict_get r key
  end.

(** [d[key]] *)
Definition getitem (d : pydict) (key : pystr) : result pyval :=
  match dict_get d key with
  | Some v => Ok v
  | None => Raise (KeyError key)
  end.

(** [v == "literal"]: only a [str] equals a [str]. *)
Definition eq_str (v : pyval) (s : pystr) : bool :=
  match v with
  | PyStr t => pystr_eqb t s
  | _ => false
  end.

(** ** The interpreter at hand

    Texts that belong to the interpreter and to the terminal, not to the
    script: every property below holds whatever they are. *)
Record Runtime := {
  prog : pystr;                     (* the program name argparse prints *)
  format_usage : pystr;             (* [parser.format_usage()] *)
  format_help : pystr;              (* [parser.format_help()] *)
  extend_str_message : pystr;       (* [bytearray.extend] given a [str] *)
  extend_int_message : pystr;       (* [bytearray.extend] given an [int] *)
  not_serializable_message : pystr; (* [json.dumps] given [bytes] *)
  traceback : exn -> pystr          (* report of an uncaught exception *)
}.

(** ** [argparse]

    The command line is taken as argparse (CPython 3.11) reads it, a
    sequence of items:
    - an option with its value ([--rate +10%], [--rate=+10%], [--r x]);
    - a help request ([-h], [--help]);
    - an argument that no declared option accounts for (a stray word, an
      unknown option, [--] and what follows it);
    - an option that takes a value and has none: it ends the command line
      or is followed by something that looks like an option, as in
      [--rate -10%] or [--text --help];
    - a help request given a value it does not take ([--help=1], [-hx]),
      with the value as the message shows it;
    - an option string that abbreviates several options ([--=x]). *)

Module Argparse.

Inductive option_string := opt_text | opt_voice | opt_rate | opt_pitch.

Inductive cli_item :=
| Given (o : option_string) (value : pystr)
| HelpFlag
| Unrecognized (arg : pystr)
| MissingValue (o : option_string)
| HelpWithValue (shown : pystr)
| Ambiguous (arg : pystr).

Record Namespace := {
  text : pystr;
  voice : pystr;
  rate : pystr;
  pitch : pystr
}.

Inductive parsed :=
| Args (args : Namespace)
| PrintHelp
| Error (message : pystr).

(** The declarations of source lines 10 to 13. *)
Definition default_voice : pystr := u "en-US-GuyNeural".
Definition default_rate : pystr := u "+0%".
Definition default_pitch : pystr := u "+0Hz".

Fixpoint join_spaces (l : list pystr) : pystr :=
  match l with
  | [] => []
  | [x] => x
  | x :: r => x ++ [32] ++ join_spaces r
  end.

Definition required_message : pystr :=
  u "the following arguments are required: --text".

Definition unrecognized_message (extras : list pystr) : pystr :=
  u "unrecognized arguments: " ++ join_spaces extras.

Definition option_name (o : option_string) : pystr :=
  match o with
  | opt_text => u "--text"
  | opt_voice => u "--voice"
  | opt_rate => u "--rate"
  | opt_pitch => u "--pitch"
  end.

Definition expected_message (o : option_string) : pystr :=
  u "argument " ++ option_name o ++ u ": expected one argument".

Definition ignored_message (shown : pystr) : pystr :=
  u "argument -h/--help: ignored explicit argument " ++ shown.

Definition ambiguous_message (arg : pystr) : pystr :=
  u "ambiguous option: " ++ arg
    ++ u " could match --help, --text, --voice, --rate, --pitch".

(** Option strings are resolved over the whole command line before
    anything is consumed: the first ambiguous one is an error. *)
Fixpoint ambiguous (items : list cli_item) : option pystr :=
  match items with
  | [] => None
  | Ambiguous a :: _ => Some a
  | _ :: rest => ambiguous rest
  end.

(** Items are consumed from left to right: an option stores its value over
    the previous one; a help request ends the parse on the spot, and so
    does an option without its value or a help request with one, as an
    error; what is not recognised is set aside.  Required options are
    checked at the end, before the arguments set aside are rejected. *)
Fixpoint consume (items : list cli_item)
    (t : option pystr) (v r p : pystr) (extras : list pystr) : parsed :=
  match items with
  | [] =>
      match t with
      | None => Error required_message
      | Some t' =>
          match extras with
          | [] => Args {| text := t'; voice := v; rate := r; pitch := p |}
          | _ => Error (unrecognized_message extras)
          end
      end
  | Given opt_text x :: rest => consume rest (Some x) v r p extras
  | Given opt_voice x :: rest => consume rest t x r p extras
  | Given opt_rate x :: rest => consume rest t v x p extras
  | Given opt_pitch x :: rest => consume rest t v r x extras
  | HelpFlag :: _ => PrintHelp
  | Unrecognized a :: rest => consume rest t v r p (extras ++ [a])
  | MissingValue o :: _ => Error (expected_message o)
  | HelpWithValue x :: _ => Error (ignored_message x)
  | Ambiguous a :: _ => Error (ambiguous_message a)
  end.

Definition parse_args (items : list cli_item) : parsed :=
  match ambiguous items with
  | Some a => Error (ambiguous_message a)
  | None => consume items None default_voice default_rate default_pitch []
  end.

End Argparse.

(** ** The collaborator: [edge_tts.Communicate]

    The arguments the script passes, and what the collaborator does with
    them: the constructor may raise; otherwise [stream()] yields chunks
    until it stops or raises. *)

Record Communicate_kwargs := {
  kw_text : pystr;
  kw_voice : pystr;
  kw_rate : pystr;
  kw_pitch : pystr;
  kw_boundary : pystr
}.

Inductive stream_end :=
| StopAsyncIteration
| StreamRaises (e : exn).

Record Stream := {
  chunks : list pydict;
  ending : stream_end
}.

Definition Collaborator := Communicate_kwargs -> result Stream.

(** ** The script *)

Record Accumulators := {
  audio_data : list byte;
  boundaries : list pydict
}.

Record Outcome := {
  stdout : pystr;
  stderr : pystr;
  exit_code : Z
}.

Section Bridge.

Variable rt : Runtime.

(** [audio_data.extend(data)].  Bytes are appended.  Any other value is
    iterated for integers: an empty [str] has nothing to iterate and appends
    nothing, a longer one and an [int] raise. *)
Definition extend (audio_data : list byte) (data : pyval) : result (list byte) :=
  match data with
  | PyBytes b => Ok (audio_data ++ b)
  | PyStr [] => Ok audio_data
  | PyStr _ => Raise (TypeError (extend_str_message rt))
  | PyInt _ => Raise (TypeError (extend_int_message rt))
  end.

(** Source lines 31 to 36: the body of the loop. *)
Definition loop_body (acc : Accumulators) (chunk : pydict) : result Accumulators :=
  ty <- getitem chunk (u "type") ;;
  if eq_str ty (u "audio") then
    data <- getitem chunk (u "data") ;;
    audio_data' <- extend (audio_data acc) data ;;
    Ok {| audio_data := audio_data'; boundaries := boundaries acc |}
  else
    ty' <- getitem chunk (u "type") ;;
    if eq_str ty' (u "WordBoundary") then
      Ok {| audio_data := audio_data acc;
            boundaries := boundaries acc ++ [chunk] |}
    else Ok acc.

(** Source line 30: [async for chunk in communicate.stream()]. *)
Fixpoint async_for (acc : Accumulators) (cs : list pydict) (fin : stream_end)
  : result Accumulators :=
  match cs with
  | [] =>
      match fin with
      | StopAsyncIteration => Ok acc
      | StreamRaises e => Raise e
      end
  | chunk :: rest =>
      acc' <- loop_body acc chunk ;;
      async_for acc' rest fin
  end.

(** [json.dumps] on the values of the script: a [bytes] object is not
    serializable, strings and integers are. *)
Definition dumps_value (v : pyval) : result Json.json :=
  match v with
  | PyStr s => Ok (Json.JString s)
  | PyInt z => Ok (Json.JNumber z)
  | PyBytes _ => Raise (TypeError (not_serializable_message rt))
  end.

Fixpoint dumps_dict (d : pydict) : result (list (pystr * Json.json)) :=
  match d with
  | [] => Ok []
  | (k, v) :: r =>
      j <- dumps_value v ;;
      m <- dumps_dict r ;;
      Ok ((k, j) :: m)
  end.

Fixpoint dumps_list (l : list pydict) : result (list Json.json) :=
  match l with
  | [] => Ok []
  | d :: r =>
      m <- dumps_dict d ;;
      js <- dumps_list r ;;
      Ok (Json.JObject m :: js)
  end.

(** Source lines 39 to 45: [json.dumps(result)] for
    [result = {"audio": audio, "boundaries": boundaries}]. *)
Definition json_dumps (audio : pystr) (boundaries : list pydict) : result pystr :=
  bs <- dumps_list boundaries ;;
  Ok (Json.encode
        (Json.JObject [(u "audio", Json.JString audio);
                       (u "boundaries", Json.JArray bs)])).

Definition empty : Accumulators := {| audio_data := []; boundaries := [] |}.

(** Source lines 29 to 45: the guarded block, up to the text handed to
    [print]. *)
Definition try_block (s : Stream) : result pystr :=
  acc <- async_for empty (chunks s) (ending s) ;;
  json_dumps (Base64.b64encode (audio_data acc)) (boundaries acc).

(** Source lines 18 to 24. *)
Definition communicate_kwargs (args : Argparse.Namespace) : Communicate_kwargs :=
  {| kw_text := Argparse.text args;
     kw_voice := Argparse.voice args;
     kw_rate := Argparse.rate args;
     kw_pitch := Argparse.pitch args;
     kw_boundary := u "WordBoundary" |}.

(** An exception nothing catches: the interpreter reports it on standard
    error and exits with status 1. *)
Definition uncaught (e : exn) : Outcome :=
  {| stdout := []; stderr := traceback rt e; exit_code := 1 |}.

(** [parser.error(message)]: usage and message on standard error, status 2. *)
Definition parser_error (message : pystr) : Outcome :=
  {| stdout := [];
     stderr := format_usage rt ++ prog rt ++ u ": error: " ++ message ++ newline;
     exit_code := 2 |}.

Definition main (argv : list Argparse.cli_item) (edge_tts : Collaborator) : Outcome :=
  match Argparse.parse_args argv with
  | Argparse.PrintHelp =>
      {| stdout := format_help rt; stderr := []; exit_code := 0 |}
  | Argparse.Error message => parser_error message
  | Argparse.Args args =>
      match edge_tts (communicate_kwargs args) with
      | Raise e => uncaught e
      | Ok communicate =>
          match try_block communicate with
          | Ok line =>
              {| stdout := line ++ newline; stderr := []; exit_code := 0 |}
          | Raise e =>
              {| stdout := [];
                 stderr := u "Error: " ++ exn_str e ++ newline;
                 exit_code := 1 |}
          end
      end
  end.

End Bridge.

(** ** Vocabulary of the properties *)

Definition is_audio (chunk : pydict) : bool :=
  match dict_get chunk (u "type") with
  | Some ty => eq_str ty (u "audio")
  | None => false
  end.

Definition is_word_boundary (chunk : pydict) : bool :=
  match dict_get chunk (u "type") with
  | Some ty => eq_str ty (u "WordBoundary")
  | None => false
  end.

(** The bytes an audio chunk carries. *)
Definition payload (chunk : pydict) : list byte :=
  match dict_get chunk (u "data") with
  | Some (PyBytes b) => b
  | _ => []
  end.

Definition serializable (v : pyval) : bool :=
  match v with
  | PyBytes _ => false
  | _ => true
  end.

Definition extendable (v : pyval) : bool :=
  match v with
  | PyBytes _ => true
  | PyStr [] => true
  | _ => false
  end.

(** A chunk the script can process: it has a type; an audio chunk carries
    data that a byte buffer accepts; the fields of a word-boundary chunk are
    strings and integers. *)
Definition well_formed (chunk : pydict) : bool :=
  match dict_get chunk (u "type") with
  | None => false
  | Some ty =>
      if eq_str ty (u "audio") then
        match dict_get chunk (u "data") with
        | Some data => extendable data
        | None => false
        end
      else if eq_str ty (u "WordBoundary") then
        forallb (fun kv => serializable (snd kv)) chunk
      else true
  end.

(** The stream drains to normal completion: it ends by stopping, and every
    chunk it yields is one the script can process.  This is exactly the
    condition under which the guarded block raises nothing (lemma
    [completes_iff]). *)
Definition completes (s : Stream) : Prop :=
  ending s = StopAsyncIteration
  /\ Forall (fun chunk => well_formed chunk = true) (chunks s).

(** What a reader of the emitted text finds for a field of a chunk, and for
    a whole chunk: one member per field, in the order of the dictionary,
    under the same key and with the same value. *)
Definition value_reads_as (v : pyval) (j : Json.json) : Prop :=
  match v with
  | PyStr s => j = Json.JString (Json.utf16 s)
  | PyInt z => j = Json.JNumber z
  | PyBytes _ => False
  end.

Definition entry_of (chunk : pydict) (entry : Json.json) : Prop :=
  exists members,
    entry = Json.JObject members
    /\ Forall2 (fun kv m => fst m = Json.utf16 (fst kv)
                            /\ value_reads_as (snd kv) (snd m))
               chunk members.

(** The values given on the command line for an option, in order. *)
Definition option_string_eqb (a b : Argparse.option_string) : bool :=
  match a, b with
  | Argparse.opt_text, Argparse.opt_text => true
  | Argparse.opt_voice, Argparse.opt_voice => true
  | Argparse.opt_rate, Argparse.opt_rate => true
  | Argparse.opt_pitch, Argparse.opt_pitch => true
  | _, _ => false
  end.

Fixpoint given (o : Argparse.option_string) (argv : list Argparse.cli_item)
  : list pystr :=
  match argv with
  | [] => []
  | Argparse.Given o' x :: rest =>
      if option_string_eqb o o' then x :: given o rest else given o rest
  | _ :: rest => given o rest
  end.

Definition printable (c : N) : Prop := 32 <= c <= 126.

(** Two results agree when both succeed with the same value or both
    raise. *)
Definition agree {A} (r1 r2 : result A) : Prop :=
  match r1, r2 with
  | Ok a, Ok b => a = b
  | Raise _, Raise _ => True
  | _, _ => False
  end.

Definition members (j : Json.json) : list (pystr * Json.json) :=
  match j with
  | Json.JObject m => m
  | _ => []
  end.

(** ** A sample run

    The texts of CPython 3.11 at a terminal of 80 columns; the frames of a
    traceback are left out. *)

Definition sample_runtime : Runtime :=
  {| prog := u "tts_bridge.py";
     format_usage :=
       u "usage: tts_bridge.py [-h] --text TEXT [--voice VOICE] [--rate RATE]"
         ++ newline
         ++ u "                     [--pitch PITCH]" ++ newline;
     format_help :=
       u "usage: tts_bridge.py [-h] --text TEXT [--voice VOICE] [--rate RATE]"
         ++ newline
         ++ u "                     [--pitch PITCH]" ++ newline
         ++ newline
         ++ u "Edge TTS Bridge" ++ newline
         ++ newline
         ++ u "options:" ++ newline
         ++ u "  -h, --help     show this help message and exit" ++ newline
         ++ u "  --text TEXT    Text to synthesize" ++ newline
         ++ u "  --voice VOICE  Voice to use" ++ newline
         ++ u "  --rate RATE    Rate adjustment" ++ newline
         ++ u "  --pitch PITCH  Pitch adjustment" ++ newline;
     extend_str_message := u "'str' object cannot be interpreted as an integer";
     extend_int_message := u "can't extend bytearray with int";
     not_serializable_message :=
       u "Object of type bytes is not JSON serializable";
     traceback := fun e =>
       u "Traceback (most recent call last):" ++ newline
         ++ exn_class e ++ u ": " ++ exn_str e ++ newline |}.

Definition audio_chunk (data : list byte) : pydict :=
  [(u "type", PyStr (u "audio")); (u "data", PyBytes data)].

Definition word_boundary_chunk (offset duration : Z) (text : pystr) : pydict :=
  [(u "type", PyStr (u "WordBoundary"));
   (u "offset", PyInt offset);
   (u "duration", PyInt duration);
   (u "text", PyStr text)].

(** The scenario of the specification: one audio chunk with bytes 01 02,
    then one boundary for the word Hi. *)
Definition sample_stream : Stream :=
  {| chunks := [audio_chunk [x01; x02]; word_boundary_chunk 0 500000 (u "Hi")];
     ending := StopAsyncIteration |}.

Definition sample_collaborator : Collaborator := fun _ => Ok sample_stream.

Definition sample_argv : list Argparse.cli_item :=
  [Argparse.Given Argparse.opt_text (u "Hi")].

Definition sample_args : Argparse.Namespace :=
  {| Argparse.text := u "Hi";
     Argparse.voice := u "en-US-GuyNeural";
     Argparse.rate := u "+0%";
     Argparse.pitch := u "+0Hz" |}.

(** The same chunks, after which the collaborator raises. *)
Definition no_audio_received : exn :=
  Exception (u "NoAudioReceived") (u "No audio was received.").

Definition failing_stream : Stream :=
  {| chunks := [audio_chunk [x01; x02]; word_boundary_chunk 0 500000 (u "Hi")];
     ending := StreamRaises no_audio_received |}.

(** A stream that stops without having yielded anything. *)
Definition silent_stream : Stream :=
  {| chunks := []; ending := StopAsyncIteration |}.

(** A chunk of a kind the script does not know. *)
Definition sentence_boundary_chunk : pydict :=
  [(u "type", PyStr (u "SentenceBoundary")); (u "offset", PyInt 0)].

(** Another interpreter, another way to write the same request. *)
Definition terse_runtime : Runtime :=
  {| prog := u "bridge";
     format_usage := u "usage: bridge" ++ newline;
     format_help := u "usage: bridge" ++ newline;
     extend_str_message := u "bad str";
     extend_int_message := u "bad int";
     not_serializable_message := u "bad bytes";
     traceback := fun e => exn_str e ++ newline |}.

Definition verbose_argv : list Argparse.cli_item :=
  [Argparse.Given Argparse.opt_voice (u "en-GB-RyanNeural");
   Argparse.Given Argparse.opt_text (u "Hi");
   Argparse.Given Argparse.opt_voice (u "en-US-GuyNeural")].

(** ** Further vocabulary

    Notions used by the properties of the edge and fault behaviour of the
    script. *)

Definition is_help (item : Argparse.cli_item) : bool :=
  match item with
  | Argparse.HelpFlag => true
  | _ => false
  end.

Definition has_help (argv : list Argparse.cli_item) : bool :=
  existsb is_help argv.

(** The arguments no declared option accounts for, in order. *)
Fixpoint unrecognized (argv : list Argparse.cli_item) : list pystr :=
  match argv with
  | [] => []
  | Argparse.Unrecognized a :: rest => a :: unrecognized rest
  | _ :: rest => unrecognized rest
  end.

(** The item that ends the consumption of the command line before its
    end, if any: the first help request, option without its value, or help
    request with a value. *)
Inductive stop :=
| StopHelp
| StopMissing (o : Argparse.option_string)
| StopIgnored (shown : pystr).

Fixpoint first_stop (argv : list Argparse.cli_item) : option stop :=
  match argv with
  | [] => None
  | Argparse.HelpFlag :: _ => Some StopHelp
  | Argparse.MissingValue o :: _ => Some (StopMissing o)
  | Argparse.HelpWithValue x :: _ => Some (StopIgnored x)
  | _ :: rest => first_stop rest
  end.

(** Help is what the parser ends on: no option string is ambiguous and the
    first item that stops the consumption is a help request. *)
Definition help_requested (argv : list Argparse.cli_item) : bool :=
  match Argparse.ambiguous argv, first_stop argv with
  | None, Some StopHelp => true
  | _, _ => false
  end.

(** The arguments [Communicate] is to be called with for a command line:
    the last value given for each option, the declared default where none
    was given, and the request for word-boundary events. *)
Definition requested_session (argv : list Argparse.cli_item)
  : Communicate_kwargs :=
  {| kw_text := last (given Argparse.opt_text argv) [];
     kw_voice := last (given Argparse.opt_voice argv) (u "en-US-GuyNeural");
     kw_rate := last (given Argparse.opt_rate argv) (u "+0%");
     kw_pitch := last (given Argparse.opt_pitch argv) (u "+0Hz");
     kw_boundary := u "WordBoundary" |}.

Definition has_type (chunk : pydict) : bool :=
  match dict_get chunk (u "type") with
  | Some _ => true
  | None => false
  end.

(** The kinds the loop acts on. *)
Definition relevant (chunk : pydict) : bool :=
  is_audio chunk || is_word_boundary chunk.

(** A chunk the body of the loop accepts: it has a type, and an audio chunk
    carries data that a byte buffer accepts. *)
Definition processable (chunk : pydict) : bool :=
  match dict_get chunk (u "type") with
  | None => false
  | Some ty =>
      if eq_str ty (u "audio") then
        match dict_get chunk (u "data") with
        | Some data => extendable data
        | None => false
        end
      else true
  end.

(** A dictionary one of whose values is a [bytes] object. *)
Definition carries_bytes (chunk : pydict) : bool :=
  existsb (fun kv => negb (serializable (snd kv))) chunk.

Definition ascii_code (c : N) : Prop := c < 128.

(** Samples: chunks the collaborator's structure does not allow, and a word
    with a curly apostrophe and an emoji. *)
Definition typeless_chunk : pydict := [(u "offset", PyInt 0)].

Definition dataless_audio_chunk : pydict := [(u "type", PyStr (u "audio"))].

Definition bytes_boundary_chunk : pydict :=
  [(u "type", PyStr (u "WordBoundary")); (u "text", PyBytes [x48; x69])].

Definition fancy_text : pystr := [72; 105; 8217; 128512].

Definition fancy_stream : Stream :=
  {| chunks := [word_boundary_chunk 0 500000 fancy_text];
     ending := StopAsyncIteration |}.

(** The sample stream with its audio cut differently and a chunk of an
    unknown kind in between. *)
Definition resliced_stream : Stream :=
  {| chunks := [audio_chunk [x01]; sentence_boundary_chunk; audio_chunk [];
                word_boundary_chunk 0 500000 (u "Hi"); audio_chunk [x02]];
     ending := StopAsyncIteration |}.

(** ** Proof automation *)

(** Arithmetic with divisions and remainders by constants. *)
Ltac arith := zify; Z.to_euclidean_division_equations; lia.

(** Tests on character codes that are known are decided by evaluation. *)
Ltac literal_tests :=
  repeat (cbv iota;
          match goal with
          | |- context [N.eqb ?a ?b] =>
              let r := eval vm_compute in (N.eqb a b) in
              match r with
              | true => change (N.eqb a b) with true
              | false => change (N.eqb a b) with false
              end
          | |- context [Json.is_ws ?c] =>
              let r := eval vm_compute in (Json.is_ws c) in
              match r with
              | true => change (Json.is_ws c) with true
              | false => change (Json.is_ws c) with false
              end
          end);
  cbv iota.

(** Tests on character codes that are not known are split. *)
Ltac tests :=
  repeat match goal with
         | |- context [?a =? ?b] => destruct (N.eqb_spec a b); try lia; subst
         | |- context [?a <=? ?b] => destruct (N.leb_spec a b); try lia
         | |- context [?a <? ?b] => destruct (N.ltb_spec a b); try lia
         end.
(** * Properties *)

(** ** Base64 *)

Module Base64Facts.
Import Base64.

Lemma b64val_b64char i : i < 64 -> b64val (b64char i) = Some i.
Proof.
  intros H.
  assert (E : forallb (fun k => match b64val (b64char (N.of_nat k)) with
                                | Some j => j =? N.of_nat k
                                | None => false
                                end) (seq 0 64) = true) by (vm_compute; reflexivity).
  rewrite forallb_forall in E.
  specialize (E (N.to_nat i)).
  rewrite N2Nat.id in E.
  assert (I : In (N.to_nat i) (seq 0 64)) by (apply in_seq; lia).
  specialize (E I).
  destruct (b64val (b64char i)) as [j|]; [|discriminate].
  apply N.eqb_eq in E. now subst.
Qed.

Lemma b64char_not_pad i : i < 64 -> (b64char i =? pad) = false.
Proof.
  intros H.
  assert (E : forallb (fun k => negb (b64char (N.of_nat k) =? pad)) (seq 0 64) = true)
    by (vm_compute; reflexivity).
  rewrite forallb_forall in E.
  specialize (E (N.to_nat i)).
  rewrite N2Nat.id in E.
  apply negb_true_iff, E, in_seq. lia.
Qed.

Lemma byte_of_N_to_N b : byte_of_N (Byte.to_N b) = b.
Proof.
  unfold byte_of_N.
  pose proof (Byte.to_N_bounded b).
  rewrite N.mod_small by lia.
  now rewrite Byte.of_to_N.
Qed.

Lemma byte_of_N_eq n b : n mod 256 = Byte.to_N b -> byte_of_N n = b.
Proof.
  intros E. unfold byte_of_N. rewrite E. now rewrite Byte.of_to_N.
Qed.

Lemma list_ind3 {A} (P : list A -> Prop) :
  P [] -> (forall a, P [a]) -> (forall a b, P [a; b]) ->
  (forall a b c l, P l -> P (a :: b :: c :: l)) ->
  forall l, P l.
Proof.
  intros H0 H1 H2 H3.
  fix IH 1.
  intros [|a [|b [|c l]]]; [apply H0 | apply H1 | apply H2 | apply H3, IH].
Qed.

Lemma b64decode_b64encode bs : b64decode (b64encode bs) = Some bs.
Proof.
  induction bs as [|a|a b|a b c l IH] using list_ind3.
  - reflexivity.
  - pose proof (Byte.to_N_bounded a) as Ha.
    cbn [b64encode b64decode]. unfold group3.
    change (Byte.to_N x00) with 0.
    set (n := Byte.to_N a * 65536 + 0 * 256 + 0).
    rewrite !b64val_b64char by (subst n; arith).
    rewrite N.eqb_refl. cbn [andb is_nil].
    f_equal. f_equal. apply byte_of_N_eq. subst n. arith.
  - pose proof (Byte.to_N_bounded a) as Ha.
    pose proof (Byte.to_N_bounded b) as Hb.
    cbn [b64encode b64decode]. unfold group3.
    change (Byte.to_N x00) with 0.
    set (n := Byte.to_N a * 65536 + Byte.to_N b * 256 + 0).
    rewrite !b64val_b64char by (subst n; arith).
    rewrite b64char_not_pad by (subst n; arith).
    rewrite N.eqb_refl. cbn [is_nil].
    f_equal. f_equal; [|f_equal]; apply byte_of_N_eq; subst n; arith.
  - pose proof (Byte.to_N_bounded a) as Ha.
    pose proof (Byte.to_N_bounded b) as Hb.
    pose proof (Byte.to_N_bounded c) as Hc.
    cbn [b64encode b64decode]. unfold group3.
    set (n := Byte.to_N a * 65536 + Byte.to_N b * 256 + Byte.to_N c).
    rewrite !b64val_b64char by (subst n; arith).
    rewrite !b64char_not_pad by (subst n; arith).
    rewrite IH.
    f_equal. f_equal; [|f_equal; [|f_equal]]; apply byte_of_N_eq; subst n; arith.
Qed.

End Base64Facts.

(** ** JSON: what is written can be read back *)

Module JsonFacts.
Import Json.

(** *** Strings *)

Lemma hexval_hexdigit d : d < 16 -> hexval (hexdigit d) = Some d.
Proof.
  intros H.
  assert (E : forallb (fun k => match hexval (hexdigit (N.of_nat k)) with
                                | Some j => j =? N.of_nat k
                                | None => false
                                end) (seq 0 16) = true) by (vm_compute; reflexivity).
  rewrite forallb_forall in E.
  specialize (E (N.to_nat d)).
  rewrite N2Nat.id in E.
  assert (I : In (N.to_nat d) (seq 0 16)) by (apply in_seq; lia).
  specialize (E I).
  destruct (hexval (hexdigit d)) as [j|]; [|discriminate].
  apply N.eqb_eq in E. now subst.
Qed.

Lemma parse_chars_u_escape n s t rest :
  n < 65536 ->
  parse_chars s = Some (t, rest) ->
  parse_chars (u_escape n ++ s) = Some (n :: t, rest).
Proof.
  intros Hn Hs. unfold u_escape.
  cbn [List.app parse_chars].
  literal_tests.
  rewrite !hexval_hexdigit by arith.
  rewrite Hs.
  do 2 f_equal. f_equal. arith.
Qed.

Lemma high_surrogate_bound c : high_surrogate c < 65536.
Proof.
  unfold high_surrogate.
  change 0x3ff with (N.ones 10). rewrite N.land_ones.
  set (y := _ mod _).
  assert (Hy : y < 2 ^ 10) by (apply N.mod_lt; discriminate).
  assert (Hpos : 0 < N.lor 0xd800 y).
  { apply N.neq_0_lt_0. intros E. apply N.lor_eq_0_iff in E as [E _]. discriminate. }
  change 65536 with (2 ^ 16).
  apply N.log2_lt_pow2; [assumption|].
  rewrite N.log2_lor. apply N.max_lub_lt; [reflexivity|].
  destruct (N.eq_dec y 0) as [->|Hy0]; [reflexivity|].
  apply N.lt_trans with 10; [|reflexivity].
  apply N.log2_lt_pow2; [lia | assumption].
Qed.

Lemma low_surrogate_bound c : low_surrogate c < 65536.
Proof.
  unfold low_surrogate.
  change 0x3ff with (N.ones 10). rewrite N.land_ones.
  set (y := _ mod _).
  assert (Hy : y < 2 ^ 10) by (apply N.mod_lt; discriminate).
  assert (Hpos : 0 < N.lor 0xdc00 y).
  { apply N.neq_0_lt_0. intros E. apply N.lor_eq_0_iff in E as [E _]. discriminate. }
  change 65536 with (2 ^ 16).
  apply N.log2_lt_pow2; [assumption|].
  rewrite N.log2_lor. apply N.max_lub_lt; [reflexivity|].
  destruct (N.eq_dec y 0) as [->|Hy0]; [reflexivity|].
  apply N.lt_trans with 10; [|reflexivity].
  apply N.log2_lt_pow2; [lia | assumption].
Qed.

Lemma parse_chars_encode_char c s t rest :
  parse_chars s = Some (t, rest) ->
  parse_chars (encode_char c ++ s) = Some (utf16_units c ++ t, rest).
Proof.
  intros Hs.
  unfold encode_char.
  destruct (ESCAPE_ASCII c) eqn:E.
  - unfold replace.
    destruct (ESCAPE_DCT c) as [e|] eqn:D.
    + unfold ESCAPE_DCT in D.
      repeat match type of D with
             | (if ?a =? ?b then _ else _) = _ =>
                 destruct (N.eqb_spec a b); [subst; injection D as <-; cbn; now rewrite Hs|]
             end.
      discriminate.
    + unfold utf16_units.
      destruct (N.ltb_spec c 0x10000).
      * now apply parse_chars_u_escape.
      * rewrite <- List.app_assoc.
        apply parse_chars_u_escape; [apply high_surrogate_bound|].
        apply parse_chars_u_escape; [apply low_surrogate_bound|].
        assumption.
  - unfold ESCAPE_ASCII in E.
    apply orb_false_iff in E as [E E3].
    apply orb_false_iff in E as [E1 E2].
    apply negb_false_iff, andb_true_iff in E3 as [E3 E4].
    apply N.eqb_neq in E1, E2. apply N.leb_le in E3, E4.
    unfold utf16_units. cbn [List.app parse_chars].
    tests. now rewrite Hs.
Qed.

Lemma parse_chars_encoded s rest :
  parse_chars (flat_map encode_char s ++ 34 :: rest) = Some (utf16 s, rest).
Proof.
  induction s as [|c s IH].
  - reflexivity.
  - cbn [flat_map utf16]. rewrite <- List.app_assoc.
    now apply parse_chars_encode_char.
Qed.

(** *** Integers *)

Lemma parse_digits_digits d rest :
  delimited rest -> parse_digits (digits d ++ rest) = (d, rest).
Proof.
  intros H.
  induction d; cbn [digits List.app parse_digits];
    try (change (digit_of _) with (Some Decimal.D0) ||
         change (digit_of _) with (Some Decimal.D1) ||
         change (digit_of _) with (Some Decimal.D2) ||
         change (digit_of _) with (Some Decimal.D3) ||
         change (digit_of _) with (Some Decimal.D4) ||
         change (digit_of _) with (Some Decimal.D5) ||
         change (digit_of _) with (Some Decimal.D6) ||
         change (digit_of _) with (Some Decimal.D7) ||
         change (digit_of _) with (Some Decimal.D8) ||
         change (digit_of _) with (Some Decimal.D9));
    try (cbv iota; rewrite IHd; reflexivity).
  destruct rest as [|c r]; [reflexivity|].
  cbn [parse_digits]. cbn [delimited] in H. now rewrite H.
Qed.

Lemma to_uint_normal p : Decimal.unorm (Pos.to_uint p) = Pos.to_uint p.
Proof.
  rewrite <- (DecimalPos.Unsigned.to_of (Pos.to_uint p)).
  now rewrite DecimalPos.Unsigned.of_to.
Qed.

Lemma to_uint_nonnil p : Pos.to_uint p <> Decimal.Nil.
Proof.
  rewrite <- to_uint_normal. apply DecimalFacts.unorm_nonnil.
Qed.

Lemma canonical_to_uint p : canonical (Pos.to_uint p) = true.
Proof.
  unfold canonical.
  pose proof (to_uint_nonnil p) as Hn.
  pose proof (to_uint_normal p) as Hu.
  destruct (Pos.to_uint p); try contradiction;
    match goal with
    | |- context [Decimal.uint_eq_dec ?a ?b] =>
        destruct (Decimal.uint_eq_dec a b); [reflexivity | contradiction]
    end.
Qed.

Lemma of_uint_to_uint p : Z.of_uint (Pos.to_uint p) = Z.pos p.
Proof.
  unfold Z.of_uint. now rewrite DecimalPos.Unsigned.of_to.
Qed.

Lemma parse_number_unsigned d rest :
  d <> Decimal.Nil -> canonical d = true -> delimited rest ->
  parse_number (digits d ++ rest) = Some (JNumber (Z.of_uint d), rest).
Proof.
  intros Hn Hc Hr.
  pose proof (parse_digits_digits d rest Hr) as E.
  unfold parse_number.
  destruct d; try contradiction;
    cbn [digits List.app] in *;
    match goal with |- context [?a =? 45] => change (a =? 45) with false end;
    cbv iota; rewrite E, Hc; reflexivity.
Qed.

Lemma parse_number_int_repr z rest :
  delimited rest ->
  parse_number (int_repr z ++ rest) = Some (JNumber z, rest).
Proof.
  intros Hr. unfold int_repr.
  destruct z as [|p|p]; cbn [Z.to_int].
  - now rewrite parse_number_unsigned.
  - rewrite parse_number_unsigned;
      auto using to_uint_nonnil, canonical_to_uint.
    now rewrite of_uint_to_uint.
  - cbn [List.app parse_number].
    change (45 =? 45) with true. cbv iota.
    rewrite parse_digits_digits by assumption.
    rewrite canonical_to_uint, of_uint_to_uint. reflexivity.
Qed.

(** The first character of a number is a minus sign or a digit. *)
Lemma int_repr_head z rest :
  exists c t, int_repr z ++ rest = c :: t /\ (c = 45 \/ 48 <= c <= 57).
Proof.
  unfold int_repr.
  destruct z as [|p|p]; cbn [Z.to_int].
  - exists 48, rest. split; [reflexivity | lia].
  - pose proof (to_uint_nonnil p) as Hn.
    destruct (Pos.to_uint p); try contradiction; cbn [digits List.app];
      eexists _, _; (split; [reflexivity | lia]).
  - eexists _, _. split; [reflexivity | lia].
Qed.

Lemma digits_printable d : Forall printable (digits d).
Proof.
  induction d; cbn [digits]; constructor; try assumption; unfold printable; lia.
Qed.

Lemma int_repr_printable z : Forall printable (int_repr z).
Proof.
  unfold int_repr. destruct (Z.to_int z).
  - apply digits_printable.
  - constructor; [unfold printable; lia | apply digits_printable].
Qed.

Lemma int_repr_nonempty z : (1 <= List.length (int_repr z))%nat.
Proof.
  destruct (int_repr_head z []) as (c & t & E & _).
  rewrite List.app_nil_r in E. rewrite E. cbn. lia.
Qed.

(** *** Values *)

Lemma json_ind' (P : json -> Prop) :
  (forall s, P (JString s)) ->
  (forall z, P (JNumber z)) ->
  (forall l, Forall P l -> P (JArray l)) ->
  (forall m, Forall (fun kv => P (snd kv)) m -> P (JObject m)) ->
  forall j, P j.
Proof.
  intros HS HN HA HO.
  fix IH 1.
  intros [s|z|l|m].
  - apply HS.
  - apply HN.
  - apply HA. induction l as [|x l IHl]; constructor; [apply IH | exact IHl].
  - apply HO. induction m as [|[k v] m IHm]; constructor; [apply IH | exact IHm].
Qed.

Lemma encode_basestring_ascii_app s rest :
  encode_basestring_ascii s ++ rest = 34 :: flat_map encode_char s ++ 34 :: rest.
Proof.
  unfold encode_basestring_ascii.
  cbn [List.app]. now rewrite <- List.app_assoc.
Qed.

Lemma join_cons {A} (f : A -> pystr) x l :
  join (map f (x :: l)) = f x ++ flat_map (fun y => item_separator ++ f y) l.
Proof.
  revert x. induction l as [|y l IH]; intros x.
  - cbn. now rewrite List.app_nil_r.
  - change (join (map f (x :: y :: l)))
      with (f x ++ item_separator ++ join (map f (y :: l))).
    rewrite IH. cbn [flat_map]. now rewrite <- (List.app_assoc item_separator).
Qed.

Lemma encode_array_cons x l rest :
  encode (JArray (x :: l)) ++ rest
  = 91 :: encode x ++ tail_items l ++ 93 :: rest.
Proof.
  cbn [encode]. rewrite join_cons.
  cbn [List.app]. now rewrite <- !List.app_assoc.
Qed.

Lemma encode_object_cons kv m rest :
  encode (JObject (kv :: m)) ++ rest
  = 123 :: encode_member kv ++ tail_members m ++ 125 :: rest.
Proof.
  cbn [encode].
  rewrite (map_ext _ encode_member) by (intros [k v]; reflexivity).
  rewrite join_cons.
  cbn [List.app]. now rewrite <- !List.app_assoc.
Qed.

Lemma encode_head j rest :
  exists c t, encode j ++ rest = c :: t /\ starts_value c.
Proof.
  unfold starts_value.
  destruct j as [s|z|l|m].
  - cbn [encode]. rewrite encode_basestring_ascii_app. eexists _, _. split; [reflexivity | auto].
  - cbn [encode]. destruct (int_repr_head z rest) as (c & t & E & H).
    exists c, t. split; [assumption | tauto].
  - cbn [encode List.app]. eexists _, _. split; [reflexivity | auto].
  - cbn [encode List.app]. eexists _, _. split; [reflexivity | auto].
Qed.

Lemma skip_ws_start c t : starts_value c -> skip_ws (c :: t) = c :: t.
Proof.
  unfold starts_value. intros H. cbn [skip_ws]. unfold is_ws.
  tests; cbn; try reflexivity; lia.
Qed.

Lemma skip_ws_encode j rest : skip_ws (encode j ++ rest) = encode j ++ rest.
Proof.
  destruct (encode_head j rest) as (c & t & E & H).
  rewrite E. now apply skip_ws_start.
Qed.

Lemma parse_value_space fuel s : parse_value fuel (32 :: s) = parse_value fuel s.
Proof. destruct fuel; reflexivity. Qed.

Lemma parse_member_space value s :
  parse_member value (32 :: s) = parse_member value s.
Proof. reflexivity. Qed.

Lemma delimited_tail_items l rest : delimited (tail_items l ++ 93 :: rest).
Proof. destruct l; reflexivity. Qed.

Lemma delimited_tail_members m rest : delimited (tail_members m ++ 125 :: rest).
Proof. destruct m; reflexivity. Qed.

Section Sequences.

Variable value : parser json.

Lemma parse_elements_encoded xs : forall n rest,
  Forall (reads value) xs -> (List.length xs < n)%nat ->
  parse_elements value n (tail_items xs ++ 93 :: rest)
  = Some (map utf16_json xs, rest).
Proof.
  induction xs as [|y ys IH]; intros n rest HF Hn; destruct n as [|n]; try (cbn in Hn; lia).
  - reflexivity.
  - inversion HF as [|? ? Hy Hys]; subst.
    unfold tail_items. cbn [flat_map]. fold (tail_items ys).
    unfold item_separator. rewrite <- List.app_assoc.
    cbn [List.app parse_elements skip_ws]. literal_tests.
    rewrite Hy by apply delimited_tail_items.
    rewrite IH by (try assumption; cbn in Hn; lia).
    reflexivity.
Qed.

Lemma parse_member_encoded k v R :
  reads value v -> delimited R ->
  parse_member value (encode_member (k, v) ++ R)
  = Some ((utf16 k, utf16_json v), R).
Proof.
  intros Hv HR.
  unfold encode_member. cbn [fst snd].
  rewrite <- !List.app_assoc.
  rewrite encode_basestring_ascii_app.
  unfold parse_member.
  cbn [skip_ws]. literal_tests.
  rewrite parse_chars_encoded.
  unfold key_separator. cbn [List.app skip_ws]. literal_tests.
  now rewrite Hv.
Qed.

Lemma parse_members_encoded m : forall n rest,
  Forall (fun kv => reads value (snd kv)) m -> (List.length m < n)%nat ->
  parse_members value n (tail_members m ++ 125 :: rest)
  = Some (map (fun kv => match kv with
                         | (k, v) => (utf16 k, utf16_json v)
                         end) m, rest).
Proof.
  induction m as [|[k v] m IH]; intros n rest HF Hn; destruct n as [|n]; try (cbn in Hn; lia).
  - reflexivity.
  - inversion HF as [|? ? Hy Hys]; subst.
    unfold tail_members. cbn [flat_map]. fold (tail_members m).
    unfold item_separator. rewrite <- List.app_assoc.
    cbn [List.app parse_members skip_ws]. literal_tests.
    rewrite parse_member_space.
    rewrite parse_member_encoded by (try assumption; apply delimited_tail_members).
    rewrite IH by (try assumption; cbn in Hn; lia).
    reflexivity.
Qed.

End Sequences.

Lemma list_sum_cons a l : list_sum (a :: l) = (a + list_sum l)%nat.
Proof. reflexivity. Qed.

Lemma size_positive j : (1 <= size j)%nat.
Proof. destruct j; cbn; lia. Qed.

Lemma size_sum_bound (l : list json) x :
  In x l -> (size x <= list_sum (map size l))%nat.
Proof.
  induction l as [|y l IH]; intros H; [destruct H|].
  destruct H as [->|H]; cbn [map]; rewrite ?list_sum_cons; [lia|].
  specialize (IH H). lia.
Qed.

Lemma length_le_size_sum (l : list json) :
  (List.length l <= list_sum (map size l))%nat.
Proof.
  induction l as [|y l IH]; cbn [map List.length]; rewrite ?list_sum_cons; [lia|].
  pose proof (size_positive y). lia.
Qed.

Lemma parse_value_number f c t :
  c = 45 \/ 48 <= c <= 57 ->
  parse_value (S f) (c :: t) = parse_number (c :: t).
Proof.
  intros H. cbn [parse_value].
  rewrite skip_ws_start by (unfold starts_value; tauto).
  tests; reflexivity.
Qed.

Lemma parse_value_array f r c t :
  skip_ws r = c :: t -> (c =? 93) = false ->
  parse_value (S f) (91 :: r)
  = match parse_value f r with
    | Some (x, r1) =>
        match parse_elements (parse_value f) f r1 with
        | Some (xs, rest) => Some (JArray (x :: xs), rest)
        | None => None
        end
    | None => None
    end.
Proof.
  intros E H. cbn [parse_value skip_ws]. literal_tests.
  now rewrite E, H.
Qed.

Lemma parse_value_object f r c t :
  skip_ws r = c :: t -> (c =? 125) = false ->
  parse_value (S f) (123 :: r)
  = match parse_member (parse_value f) r with
    | Some (kv, r1) =>
        match parse_members (parse_value f) f r1 with
        | Some (kvs, rest) => Some (JObject (kv :: kvs), rest)
        | None => None
        end
    | None => None
    end.
Proof.
  intros E H. cbn [parse_value skip_ws]. literal_tests.
  now rewrite E, H.
Qed.

(** Reading what [encode] wrote gives the value back, whatever follows it. *)
Lemma parse_value_encode j : forall fuel rest,
  (size j <= fuel)%nat -> delimited rest ->
  parse_value fuel (encode j ++ rest) = Some (utf16_json j, rest).
Proof.
  induction j as [s|z|l IH|m IH] using json_ind'; intros fuel rest Hf Hr;
    (destruct fuel as [|f]; [pose proof (size_positive (JString [])); cbn in Hf; lia|]).
  - cbn [encode]. rewrite encode_basestring_ascii_app.
    cbn [parse_value skip_ws]. literal_tests.
    now rewrite parse_chars_encoded.
  - cbn [encode utf16_json].
    destruct (int_repr_head z rest) as (c & t & E & H).
    rewrite E, parse_value_number, <- E by assumption.
    now apply parse_number_int_repr.
  - destruct l as [|x xs].
    + reflexivity.
    + rewrite encode_array_cons.
      cbn [size map] in Hf; rewrite ?list_sum_cons in Hf.
      inversion IH as [|? ? Hx Hxs]; subst.
      destruct (encode_head x (tail_items xs ++ 93 :: rest)) as (c & t & E & Hc).
      rewrite (parse_value_array f _ c t);
        [| rewrite E; now apply skip_ws_start
         | unfold starts_value in Hc; apply N.eqb_neq; lia].
      rewrite Hx by (try apply delimited_tail_items; lia).
      rewrite parse_elements_encoded; [reflexivity| |].
      * rewrite Forall_forall in Hxs |- *. intros y Hy R HR.
        rewrite parse_value_space.
        apply Hxs; [assumption| |assumption].
        pose proof (size_sum_bound xs y Hy). lia.
      * pose proof (length_le_size_sum xs). pose proof (size_positive x). lia.
  - destruct m as [|[k v] m].
    + reflexivity.
    + rewrite encode_object_cons.
      cbn [size map] in Hf; rewrite ?list_sum_cons in Hf.
      inversion IH as [|? ? Hv Hm]; subst. cbn [snd] in Hv.
      assert (Hreads : forall kv, In kv ((k, v) :: m) ->
                reads (parse_value f) (snd kv)).
      { intros kv Hin R HR. rewrite parse_value_space.
        rewrite Forall_forall in IH. apply IH; [assumption| |assumption].
        clear - Hin Hf.
        assert (size (snd kv) <=
                list_sum (map (fun kv => match kv with (_, v) => size v end)
                              ((k, v) :: m)))%nat.
        { revert Hin. generalize ((k, v) :: m). intros l.
          induction l as [|[k' v'] l IHl]; intros H; [destruct H|].
          destruct H as [<-|H]; cbn [map snd]; rewrite ?list_sum_cons; [lia|].
          specialize (IHl H). lia. }
        cbn [map] in H; rewrite ?list_sum_cons in H. lia. }
      unfold encode_member at 1. cbn [fst snd].
      rewrite <- List.app_assoc, encode_basestring_ascii_app.
      rewrite (parse_value_object f _ 34 (flat_map encode_char k ++ 34 :: (key_separator ++ encode v) ++ tail_members m ++ 125 :: rest));
        [| reflexivity | reflexivity].
      rewrite <- encode_basestring_ascii_app.
      rewrite List.app_assoc.
      change (encode_basestring_ascii k ++ key_separator ++ encode v)
        with (encode_member (k, v)).
      rewrite parse_member_encoded;
        [| apply (Hreads (k, v)); now left | apply delimited_tail_members].
      rewrite parse_members_encoded; [reflexivity| |].
      * apply Forall_forall. intros kv Hin. apply Hreads. now right.
      * assert (List.length m <=
                list_sum (map (fun kv => match kv with (_, v) => size v end) m))%nat.
        { clear. induction m as [|[k' v'] m IHm];
            cbn [map List.length]; rewrite ?list_sum_cons; [lia|].
          pose proof (size_positive v'). lia. }
        pose proof (size_positive v). lia.
Qed.

Lemma sum_le_tail {A} (sz : A -> nat) (f : A -> pystr) l :
  Forall (fun x => sz x <= List.length (f x))%nat l ->
  (list_sum (map sz l)
   <= List.length (flat_map (fun y => item_separator ++ f y) l))%nat.
Proof.
  induction 1 as [|x l Hx Hl IH]; cbn [map flat_map]; [reflexivity|].
  rewrite list_sum_cons, !length_app. lia.
Qed.

Lemma sum_le_join {A} (sz : A -> nat) (f : A -> pystr) l :
  Forall (fun x => sz x <= List.length (f x))%nat l ->
  (list_sum (map sz l) <= List.length (join (map f l)))%nat.
Proof.
  intros H. destruct l as [|x l]; [reflexivity|].
  inversion H as [|? ? Hx Hl]; subst.
  rewrite join_cons, length_app. cbn [map]. rewrite list_sum_cons.
  pose proof (sum_le_tail sz f l Hl). lia.
Qed.

Lemma size_le_length j : (size j <= List.length (encode j))%nat.
Proof.
  induction j as [s|z|l IH|m IH] using json_ind'.
  - cbn [size encode]. unfold encode_basestring_ascii.
    rewrite !length_app. cbn [List.length]. lia.
  - apply int_repr_nonempty.
  - cbn [size encode]. rewrite !length_app. cbn [List.length].
    pose proof (sum_le_join size encode l IH). lia.
  - cbn [size encode]. rewrite !length_app. cbn [List.length].
    match goal with
    | |- context [join (map ?f m)] =>
        pose proof (sum_le_join (fun kv => match kv with (_, v) => size v end) f m) as H
    end.
    assert (H' : Forall (fun kv : pystr * json =>
                     (let (_, v) := kv in size v) <=
                     List.length (let (k, v) := kv in
                                  encode_basestring_ascii k ++ key_separator ++ encode v))%nat m).
    { apply Forall_impl with (2 := IH). intros [k v] Hkv. cbn [snd] in Hkv.
      rewrite !length_app. lia. }
    specialize (H H').
    apply le_n_S. rewrite Nat.add_1_r. apply le_S. exact H.
Qed.

(** A document followed by white space only is a JSON text, and it reads as
    the document. *)
Theorem loads_encode j ws :
  skip_ws ws = [] -> delimited ws ->
  loads (encode j ++ ws) = Some (utf16_json j).
Proof.
  intros Hws Hd. unfold loads.
  rewrite parse_value_encode; [now rewrite Hws | | assumption].
  pose proof (size_le_length j). rewrite length_app. lia.
Qed.

(** *** The text is printable ASCII *)

Lemma hexdigit_printable d : printable (hexdigit d).
Proof.
  unfold hexdigit.
  destruct (nth_in_or_default (N.to_nat d) hexdigits 48) as [H| ->];
    [|unfold printable; lia].
  revert H. generalize (nth (N.to_nat d) hexdigits 48). intros c H.
  unfold hexdigits in H. cbn [In] in H. unfold printable.
  repeat (destruct H as [<-|H]; [lia|]). destruct H.
Qed.

Lemma u_escape_printable n : Forall printable (u_escape n).
Proof.
  unfold u_escape.
  repeat (constructor; try apply hexdigit_printable); unfold printable; lia.
Qed.

Lemma encode_char_printable c : Forall printable (encode_char c).
Proof.
  unfold encode_char.
  destruct (ESCAPE_ASCII c) eqn:E.
  - unfold replace.
    destruct (ESCAPE_DCT c) as [e|] eqn:D.
    + unfold ESCAPE_DCT in D.
      repeat match type of D with
             | (if ?a =? ?b then _ else _) = _ =>
                 destruct (a =? b);
                 [injection D as <-; repeat constructor; unfold printable; lia|]
             end.
      discriminate.
    + destruct (c <? 0x10000).
      * apply u_escape_printable.
      * apply Forall_app; split; apply u_escape_printable.
  - unfold ESCAPE_ASCII in E.
    apply orb_false_iff in E as [_ E].
    apply negb_false_iff, andb_true_iff in E as [E1 E2].
    apply N.leb_le in E1, E2. repeat constructor; assumption.
Qed.

Lemma encode_basestring_ascii_printable s :
  Forall printable (encode_basestring_ascii s).
Proof.
  unfold encode_basestring_ascii.
  apply Forall_app; split; [repeat constructor; unfold printable; lia|].
  apply Forall_app; split; [|repeat constructor; unfold printable; lia].
  apply Forall_flat_map, Forall_forall. intros c _. apply encode_char_printable.
Qed.

Lemma join_printable parts :
  Forall (Forall printable) parts -> Forall printable (join parts).
Proof.
  induction 1 as [|x l Hx Hl IH]; [constructor|].
  destruct l as [|y l]; [assumption|].
  change (join (x :: y :: l)) with (x ++ item_separator ++ join (y :: l)).
  apply Forall_app; split; [assumption|].
  apply Forall_app; split; [|assumption].
  repeat constructor; unfold printable; lia.
Qed.

Theorem encode_printable j : Forall printable (encode j).
Proof.
  induction j as [s|z|l IH|m IH] using json_ind'; cbn [encode].
  - apply encode_basestring_ascii_printable.
  - apply int_repr_printable.
  - apply Forall_app; split; [repeat constructor; unfold printable; lia|].
    apply Forall_app; split; [|repeat constructor; unfold printable; lia].
    apply join_printable, Forall_map. exact IH.
  - apply Forall_app; split; [repeat constructor; unfold printable; lia|].
    apply Forall_app; split; [|repeat constructor; unfold printable; lia].
    apply join_printable, Forall_map.
    apply Forall_impl with (2 := IH). intros [k v] Hkv. cbn [snd] in Hkv.
    apply Forall_app; split; [apply encode_basestring_ascii_printable|].
    apply Forall_app; split; [repeat constructor; unfold printable; lia | assumption].
Qed.

(** *** Strings of the basic plane read back unchanged *)

Lemma utf16_bmp s : Forall (fun c => c < 0x10000) s -> utf16 s = s.
Proof.
  induction 1 as [|c s Hc Hs IH]; [reflexivity|].
  cbn [utf16 flat_map]. fold (utf16 s). rewrite IH.
  unfold utf16_units.
  destruct (N.ltb_spec c 0x10000); [reflexivity | lia].
Qed.

Lemma printable_bmp s : Forall printable s -> Forall (fun c => c < 0x10000) s.
Proof.
  apply Forall_impl. unfold printable. intros c H. lia.
Qed.

(** *** Nothing of a string is lost *)

Lemma lor_low_bits a y :
  (a = 0xd800 \/ a = 0xdc00) -> y < 1024 -> N.lor a y = a + y.
Proof.
  intros Ha Hy.
  assert (E : forallb (fun k => (N.lor 0xd800 (N.of_nat k) =? 0xd800 + N.of_nat k)
                                && (N.lor 0xdc00 (N.of_nat k) =? 0xdc00 + N.of_nat k))
                      (seq 0 1024) = true) by (vm_compute; reflexivity).
  rewrite forallb_forall in E.
  specialize (E (N.to_nat y)). rewrite N2Nat.id in E.
  assert (I : In (N.to_nat y) (seq 0 1024)) by (apply in_seq; lia).
  apply E, andb_true_iff in I as [E1 E2].
  apply N.eqb_eq in E1, E2.
  destruct Ha; subst a; assumption.
Qed.

Lemma high_surrogate_value c :
  0x10000 <= c -> c < 0x110000 ->
  high_surrogate c = 0xd800 + (c - 0x10000) / 1024.
Proof.
  intros H1 H2. unfold high_surrogate.
  change 0x3ff with (N.ones 10). rewrite N.land_ones, N.shiftr_div_pow2.
  change (2 ^ 10) with 1024.
  rewrite N.mod_small by arith.
  apply lor_low_bits; [now left | arith].
Qed.

Lemma low_surrogate_value c :
  low_surrogate c = 0xdc00 + (c - 0x10000) mod 1024.
Proof.
  unfold low_surrogate.
  change 0x3ff with (N.ones 10). rewrite N.land_ones.
  change (2 ^ 10) with 1024.
  apply lor_low_bits; [now right | arith].
Qed.

Theorem utf16_decode_utf16 s :
  Forall scalar_value s -> utf16_decode (utf16 s) = s.
Proof.
  induction 1 as [|c s Hc Hs IH]; [reflexivity|].
  cbn [utf16 flat_map]. fold (utf16 s).
  unfold utf16_units.
  destruct (N.ltb_spec c 0x10000) as [Hlt|Hge].
  - cbn [List.app utf16_decode].
    destruct (utf16 s) as [|lo r] eqn:E.
    + cbn [utf16_decode] in IH. now rewrite <- IH.
    + assert (Hh : is_high c = false).
      { unfold is_high, scalar_value in *. tests; reflexivity. }
      rewrite Hh. cbn [andb]. now rewrite IH.
  - unfold scalar_value in Hc.
    assert (Hb : c < 0x110000) by lia.
    cbn [List.app utf16_decode].
    rewrite IH.
    rewrite (high_surrogate_value c Hge Hb), low_surrogate_value.
    set (n := c - 0x10000).
    assert (Hq : n / 1024 < 1024) by (subst n; arith).
    assert (Hr : n mod 1024 < 1024) by (apply N.mod_lt; discriminate).
    assert (Hh : is_high (0xd800 + n / 1024) = true).
    { unfold is_high. apply andb_true_iff. split; [apply N.leb_le | apply N.ltb_lt]; arith. }
    assert (Hl : is_low (0xdc00 + n mod 1024) = true).
    { unfold is_low. apply andb_true_iff. split; [apply N.leb_le | apply N.ltb_lt]; arith. }
    rewrite Hh, Hl. cbn [andb].
    f_equal. subst n. arith.
Qed.

End JsonFacts.

(** ** The bridge *)

Lemma pystr_eqb_eq a b : pystr_eqb a b = true <-> a = b.
Proof.
  unfold pystr_eqb. destruct (list_eq_dec N.eq_dec a b); split; congruence.
Qed.

Lemma eq_str_true v s : eq_str v s = true -> v = PyStr s.
Proof.
  destruct v; cbn; try discriminate.
  intros H. apply pystr_eqb_eq in H. now subst.
Qed.

Lemma b64char_printable i : printable (Base64.b64char i).
Proof.
  unfold Base64.b64char.
  destruct (nth_in_or_default (N.to_nat i) Base64.alphabet Base64.pad) as [H| ->];
    [|unfold printable, Base64.pad; lia].
  revert H. generalize (nth (N.to_nat i) Base64.alphabet Base64.pad). intros c H.
  unfold Base64.alphabet in H. cbn [In] in H. unfold printable.
  repeat (destruct H as [<-|H]; [lia|]). destruct H.
Qed.

Lemma b64encode_printable bs : Forall printable (Base64.b64encode bs).
Proof.
  induction bs as [|a|a b|a b c l IH] using Base64Facts.list_ind3;
    cbn [Base64.b64encode];
    repeat (constructor; try apply b64char_printable);
    try assumption; unfold printable, Base64.pad; lia.
Qed.

Lemma utf16_b64encode bs : Json.utf16 (Base64.b64encode bs) = Base64.b64encode bs.
Proof.
  apply JsonFacts.utf16_bmp, JsonFacts.printable_bmp, b64encode_printable.
Qed.

Section BridgeFacts.

Variable rt : Runtime.

(** *** One chunk *)

Lemma loop_body_ok acc chunk acc' :
  loop_body rt acc chunk = Ok acc' ->
  audio_data acc' = audio_data acc ++ (if is_audio chunk then payload chunk else [])
  /\ boundaries acc' =
       boundaries acc ++ (if is_word_boundary chunk then [chunk] else []).
Proof.
  unfold loop_body, is_audio, is_word_boundary, getitem, payload.
  destruct (dict_get chunk (u "type")) as [ty|]; cbn [bind]; [|discriminate].
  destruct (eq_str ty (u "audio")) eqn:Ea.
  - apply eq_str_true in Ea. subst ty.
    change (eq_str (PyStr (u "audio")) (u "WordBoundary")) with false.
    destruct (dict_get chunk (u "data")) as [[[|c s]|z|b]|]; cbn [bind extend];
      try discriminate; intros H; injection H as <-; cbn [audio_data boundaries];
      rewrite ?List.app_nil_r; auto.
  - cbn [bind]. destruct (eq_str ty (u "WordBoundary"));
      intros H; injection H as <-; cbn [audio_data boundaries];
      rewrite ?List.app_nil_r; auto.
Qed.

Lemma loop_body_well_formed acc chunk :
  well_formed chunk = true -> exists acc', loop_body rt acc chunk = Ok acc'.
Proof.
  unfold well_formed, loop_body, getitem.
  destruct (dict_get chunk (u "type")) as [ty|]; cbn [bind]; [|discriminate].
  destruct (eq_str ty (u "audio")).
  - destruct (dict_get chunk (u "data")) as [[[|c s]|z|b]|]; cbn [bind extend extendable];
      try discriminate; eauto.
  - cbn [bind]. destruct (eq_str ty (u "WordBoundary")); eauto.
Qed.

(** *** The loop *)

Lemma async_for_ok cs : forall acc fin acc',
  async_for rt acc cs fin = Ok acc' ->
  fin = StopAsyncIteration
  /\ audio_data acc' =
       audio_data acc ++ concat (map payload (filter is_audio cs))
  /\ boundaries acc' = boundaries acc ++ filter is_word_boundary cs.
Proof.
  induction cs as [|c cs IH]; intros acc fin acc' H; cbn [async_for] in H.
  - destruct fin; [|discriminate]. injection H as <-.
    cbn. now rewrite !List.app_nil_r.
  - destruct (loop_body rt acc c) as [acc1|e] eqn:E; cbn [bind] in H; [|discriminate].
    apply loop_body_ok in E as [Ea Eb].
    apply IH in H as (Hf & Ha & Hb).
    split; [assumption|].
    rewrite Ha, Hb, Ea, Eb. cbn [filter].
    destruct (is_audio c), (is_word_boundary c); cbn [map concat];
      rewrite <- ?List.app_assoc, ?List.app_nil_r; cbn [List.app]; auto.
Qed.

Lemma async_for_completes cs : forall acc,
  Forall (fun chunk => well_formed chunk = true) cs ->
  exists acc', async_for rt acc cs StopAsyncIteration = Ok acc'.
Proof.
  induction cs as [|c cs IH]; intros acc H; cbn [async_for].
  - eauto.
  - inversion H as [|? ? Hc Hcs]; subst.
    destruct (loop_body_well_formed acc c Hc) as [acc1 ->]. cbn [bind].
    now apply IH.
Qed.

Lemma async_for_raises cs e0 : forall acc,
  exists e, async_for rt acc cs (StreamRaises e0) = Raise e.
Proof.
  induction cs as [|c cs IH]; intros acc; cbn [async_for].
  - eauto.
  - destruct (loop_body rt acc c) as [acc1|e]; cbn [bind]; eauto.
Qed.

(** *** The encoder *)

Lemma dumps_dict_ok d :
  forallb (fun kv => serializable (snd kv)) d = true ->
  exists m, dumps_dict rt d = Ok m.
Proof.
  induction d as [|[k v] d IH]; cbn [forallb dumps_dict snd]; intros H; [eauto|].
  apply andb_true_iff in H as [Hv Hd].
  destruct (IH Hd) as [m ->].
  destruct v; cbn in Hv |- *; try discriminate; eauto.
Qed.

Lemma dumps_dict_entry d m :
  dumps_dict rt d = Ok m -> entry_of d (Json.utf16_json (Json.JObject m)).
Proof.
  intros H. eexists. split; [reflexivity|].
  revert m H. induction d as [|[k v] d IH]; intros m H; cbn [dumps_dict] in H.
  - injection H as <-. constructor.
  - destruct (dumps_value rt v) as [j|] eqn:Ev; cbn [bind] in H; [|discriminate].
    destruct (dumps_dict rt d) as [m'|]; cbn [bind] in H; [|discriminate].
    injection H as <-. cbn [map]. constructor; [|now apply IH].
    cbn [fst snd]. split; [reflexivity|].
    destruct v; cbn in Ev |- *; try discriminate; now injection Ev as <-.
Qed.

Lemma dumps_list_ok l :
  Forall (fun d => forallb (fun kv => serializable (snd kv)) d = true) l ->
  exists js, dumps_list rt l = Ok js.
Proof.
  induction 1 as [|d l Hd Hl [js IH]]; cbn [dumps_list]; [eauto|].
  destruct (dumps_dict_ok d Hd) as [m ->]. rewrite IH. cbn [bind]. eauto.
Qed.

Lemma dumps_list_entries l : forall js,
  dumps_list rt l = Ok js -> Forall2 entry_of l (map Json.utf16_json js).
Proof.
  induction l as [|d l IH]; intros js H; cbn [dumps_list] in H.
  - injection H as <-. constructor.
  - destruct (dumps_dict rt d) as [m|] eqn:Ed; cbn [bind] in H; [|discriminate].
    destruct (dumps_list rt l) as [js'|]; cbn [bind] in H; [|discriminate].
    injection H as <-. cbn [map]. constructor; [|now apply IH].
    now apply dumps_dict_entry.
Qed.

(** *** The guarded block and the process *)

Lemma try_block_ok s line :
  try_block rt s = Ok line ->
  ending s = StopAsyncIteration
  /\ exists js,
       dumps_list rt (filter is_word_boundary (chunks s)) = Ok js
       /\ line = Json.encode
                   (Json.JObject
                      [(u "audio",
                        Json.JString
                          (Base64.b64encode
                             (concat (map payload (filter is_audio (chunks s))))));
                       (u "boundaries", Json.JArray js)]).
Proof.
  unfold try_block, json_dumps. intros H.
  destruct (async_for rt empty (chunks s) (ending s)) as [acc|] eqn:E;
    cbn [bind] in H; [|discriminate].
  apply async_for_ok in E as (Hf & Ha & Hb). cbn [empty audio_data boundaries List.app] in Ha, Hb.
  rewrite Ha, Hb in H.
  destruct (dumps_list rt _) as [js|] eqn:Ej; cbn [bind] in H; [|discriminate].
  injection H as <-. eauto.
Qed.

Lemma word_boundaries_serializable cs :
  Forall (fun chunk => well_formed chunk = true) cs ->
  Forall (fun d => forallb (fun kv => serializable (snd kv)) d = true)
         (filter is_word_boundary cs).
Proof.
  intros H. apply Forall_forall. intros c Hc.
  apply filter_In in Hc as [Hin Hwb].
  rewrite Forall_forall in H. specialize (H c Hin).
  unfold well_formed in H. unfold is_word_boundary in Hwb.
  destruct (dict_get c (u "type")) as [ty|]; [|discriminate].
  apply eq_str_true in Hwb. subst ty.
  exact H.
Qed.

Lemma try_block_completes s :
  completes s -> exists line, try_block rt s = Ok line.
Proof.
  intros [Hend Hwf]. unfold try_block, json_dumps.
  rewrite Hend.
  destruct (async_for_completes (chunks s) empty Hwf) as [acc E].
  rewrite E. cbn [bind].
  apply async_for_ok in E as (_ & _ & Hb). cbn [empty boundaries List.app] in Hb.
  rewrite Hb.
  destruct (dumps_list_ok _ (word_boundaries_serializable _ Hwf)) as [js ->].
  cbn [bind]. eauto.
Qed.

Lemma main_ok argv args edge_tts s line :
  Argparse.parse_args argv = Argparse.Args args ->
  edge_tts (communicate_kwargs args) = Ok s ->
  try_block rt s = Ok line ->
  main rt argv edge_tts
  = {| stdout := line ++ newline; stderr := []; exit_code := 0 |}.
Proof.
  intros Hp He Ht. unfold main. now rewrite Hp, He, Ht.
Qed.

Lemma main_raise argv args edge_tts s e :
  Argparse.parse_args argv = Argparse.Args args ->
  edge_tts (communicate_kwargs args) = Ok s ->
  try_block rt s = Raise e ->
  main rt argv edge_tts
  = {| stdout := [];
       stderr := u "Error: " ++ exn_str e ++ newline;
       exit_code := 1 |}.
Proof.
  intros Hp He Ht. unfold main. now rewrite Hp, He, Ht.
Qed.

(** What a successful run writes, and what a reader finds in it. *)
Lemma successful_run argv args edge_tts s :
  Argparse.parse_args argv = Argparse.Args args ->
  edge_tts (communicate_kwargs args) = Ok s ->
  completes s ->
  exists line entries,
    main rt argv edge_tts
    = {| stdout := line ++ newline; stderr := []; exit_code := 0 |}
    /\ Forall printable line
    /\ Json.loads line
       = Some (Json.JObject
                 [(u "audio",
                   Json.JString
                     (Base64.b64encode
                        (concat (map payload (filter is_audio (chunks s))))));
                  (u "boundaries", Json.JArray entries)])
    /\ Forall2 entry_of (filter is_word_boundary (chunks s)) entries.
Proof.
  intros Hp He Hc.
  destruct (try_block_completes s Hc) as [line Ht].
  destruct (try_block_ok s line Ht) as (_ & js & Hjs & Hline).
  exists line, (map Json.utf16_json js).
  split; [now apply main_ok with args s|].
  split; [subst line; apply JsonFacts.encode_printable|].
  split; [|now apply dumps_list_entries].
  subst line.
  rewrite <- (List.app_nil_r (Json.encode _)).
  rewrite JsonFacts.loads_encode by reflexivity.
  cbn [Json.utf16_json map]. rewrite utf16_b64encode. reflexivity.
Qed.

End BridgeFacts.

(** *** The interpreter's texts do not reach standard output *)

Section TwoRuntimes.

Variables rt1 rt2 : Runtime.

Lemma agree_bind {A B} (r1 r2 : result A) (k1 k2 : A -> result B) :
  agree r1 r2 -> (forall a, agree (k1 a) (k2 a)) ->
  agree (bind r1 k1) (bind r2 k2).
Proof.
  destruct r1, r2; cbn; intros H Hk; try contradiction; [subst; apply Hk | exact I].
Qed.

Lemma agree_refl {A} (r : result A) : agree r r.
Proof. destruct r; cbn; auto. Qed.

Lemma loop_body_agree acc chunk :
  agree (loop_body rt1 acc chunk) (loop_body rt2 acc chunk).
Proof.
  unfold loop_body.
  apply agree_bind; [apply agree_refl|]. intros ty.
  destruct (eq_str ty (u "audio")); [|apply agree_refl].
  apply agree_bind; [apply agree_refl|]. intros data.
  apply agree_bind; [|intros; apply agree_refl].
  destruct data as [[|c s]|z|b]; cbn; auto.
Qed.

Lemma async_for_agree cs fin : forall acc,
  agree (async_for rt1 acc cs fin) (async_for rt2 acc cs fin).
Proof.
  induction cs as [|c cs IH]; intros acc; cbn [async_for].
  - apply agree_refl.
  - apply agree_bind; [apply loop_body_agree | apply IH].
Qed.

Lemma dumps_dict_agree d : agree (dumps_dict rt1 d) (dumps_dict rt2 d).
Proof.
  induction d as [|[k v] d IH]; cbn [dumps_dict]; [reflexivity|].
  apply agree_bind; [destruct v; cbn; auto|]. intros j.
  apply agree_bind; [apply IH | intros; apply agree_refl].
Qed.

Lemma dumps_list_agree l : agree (dumps_list rt1 l) (dumps_list rt2 l).
Proof.
  induction l as [|d l IH]; cbn [dumps_list]; [reflexivity|].
  apply agree_bind; [apply dumps_dict_agree|]. intros m.
  apply agree_bind; [apply IH | intros; apply agree_refl].
Qed.

Lemma try_block_agree s : agree (try_block rt1 s) (try_block rt2 s).
Proof.
  unfold try_block, json_dumps.
  apply agree_bind; [apply async_for_agree|]. intros acc.
  apply agree_bind; [apply dumps_list_agree | intros; apply agree_refl].
Qed.

End TwoRuntimes.

(** *** [completes] is exactly the condition of success *)

Section Converse.

Variable rt : Runtime.

Lemma dumps_dict_serializable d m :
  dumps_dict rt d = Ok m -> forallb (fun kv => serializable (snd kv)) d = true.
Proof.
  revert m. induction d as [|[k v] d IH]; intros m H; cbn [dumps_dict forallb snd] in *;
    [reflexivity|].
  destruct v; cbn [dumps_value bind] in H; try discriminate;
    (destruct (dumps_dict rt d) as [m'|]; cbn [bind] in H; [|discriminate]);
    cbn [serializable andb]; eauto.
Qed.

Lemma dumps_list_serializable l : forall js,
  dumps_list rt l = Ok js ->
  Forall (fun d => forallb (fun kv => serializable (snd kv)) d = true) l.
Proof.
  induction l as [|d l IH]; intros js H; cbn [dumps_list] in H; [constructor|].
  destruct (dumps_dict rt d) as [m|] eqn:Ed; cbn [bind] in H; [|discriminate].
  destruct (dumps_list rt l) as [js'|]; cbn [bind] in H; [|discriminate].
  constructor; [eapply dumps_dict_serializable; eassumption | eapply IH; reflexivity].
Qed.

Lemma loop_body_well_formed_inv acc chunk acc' :
  loop_body rt acc chunk = Ok acc' ->
  (is_word_boundary chunk = true ->
   forallb (fun kv => serializable (snd kv)) chunk = true) ->
  well_formed chunk = true.
Proof.
  unfold loop_body, is_word_boundary, well_formed, getitem.
  destruct (dict_get chunk (u "type")) as [ty|]; cbn [bind]; [|discriminate].
  destruct (eq_str ty (u "audio")).
  - destruct (dict_get chunk (u "data")) as [[[|c s]|z|b]|]; cbn [bind extend extendable];
      try discriminate; auto.
  - cbn [bind]. destruct (eq_str ty (u "WordBoundary")); auto.
Qed.

Lemma async_for_well_formed cs : forall acc fin acc',
  async_for rt acc cs fin = Ok acc' ->
  Forall (fun d => forallb (fun kv => serializable (snd kv)) d = true)
         (filter is_word_boundary cs) ->
  Forall (fun chunk => well_formed chunk = true) cs.
Proof.
  induction cs as [|c cs IH]; intros acc fin acc' H Hs; cbn [async_for] in H;
    [constructor|].
  destruct (loop_body rt acc c) as [acc1|] eqn:E; cbn [bind] in H; [|discriminate].
  cbn [filter] in Hs.
  constructor.
  - apply loop_body_well_formed_inv with (1 := E). intros Hwb.
    rewrite Hwb in Hs. now inversion Hs.
  - apply IH with (1 := H).
    destruct (is_word_boundary c); [now inversion Hs | assumption].
Qed.

Lemma try_block_ok_completes s line : try_block rt s = Ok line -> completes s.
Proof.
  intros H.
  destruct (try_block_ok rt s line H) as (Hend & js & Hjs & _).
  split; [assumption|].
  unfold try_block in H.
  destruct (async_for rt empty (chunks s) (ending s)) as [acc|] eqn:E;
    cbn [bind] in H; [|discriminate].
  apply async_for_well_formed with (1 := E).
  eapply dumps_list_serializable; eassumption.
Qed.

Lemma completes_iff s : completes s <-> exists line, try_block rt s = Ok line.
Proof.
  split.
  - apply try_block_completes.
  - intros [line H]. now apply try_block_ok_completes with line.
Qed.

(** A fault of the constructor is raised before the guarded block is
    entered: nothing catches it. *)
Lemma constructor_fault_is_uncaught argv args edge_tts e :
  Argparse.parse_args argv = Argparse.Args args ->
  edge_tts (communicate_kwargs args) = Raise e ->
  main rt argv edge_tts
  = {| stdout := []; stderr := traceback rt e; exit_code := 1 |}.
Proof.
  intros Hp He. unfold main. now rewrite Hp, He.
Qed.

(** When the parser ends on a help request, the help text is printed and
    the run ends with status 0. *)
Lemma help_request argv edge_tts :
  Argparse.parse_args argv = Argparse.PrintHelp ->
  main rt argv edge_tts
  = {| stdout := format_help rt; stderr := []; exit_code := 0 |}.
Proof.
  intros Hp. unfold main. now rewrite Hp.
Qed.

End Converse.

(** *** The command line *)

Lemma last_cons {A} (x : A) l d : last (x :: l) d = last l x.
Proof.
  revert x d. induction l as [|y l IH]; intros x d; [reflexivity|].
  change (last (x :: y :: l) d) with (last (y :: l) d).
  now rewrite !IH.
Qed.

Lemma consume_args items : forall t v r p extras args,
  Argparse.consume items t v r p extras = Argparse.Args args ->
  match t with
  | Some t0 => Argparse.text args = last (given Argparse.opt_text items) t0
  | None =>
      given Argparse.opt_text items <> []
      /\ Argparse.text args = last (given Argparse.opt_text items) []
  end
  /\ Argparse.voice args = last (given Argparse.opt_voice items) v
  /\ Argparse.rate args = last (given Argparse.opt_rate items) r
  /\ Argparse.pitch args = last (given Argparse.opt_pitch items) p.
Proof.
  induction items as [|[[| | |] x| |a|o|x|a] items IH];
    intros t v r p extras args H; cbn [Argparse.consume] in H;
    try discriminate.
  - destruct t as [t0|]; [|discriminate].
    destruct extras; [|discriminate]. injection H as <-. cbn. auto.
  - apply IH in H. cbn [given option_string_eqb].
    destruct H as (Ht & Hv & Hr & Hp).
    destruct t; rewrite !last_cons; repeat split; try assumption; discriminate.
  - apply IH in H. cbn [given option_string_eqb]. rewrite last_cons. exact H.
  - apply IH in H. cbn [given option_string_eqb]. rewrite last_cons. exact H.
  - apply IH in H. cbn [given option_string_eqb]. rewrite last_cons. exact H.
  - apply IH in H. exact H.
Qed.

Lemma parse_args_consume argv args :
  Argparse.parse_args argv = Argparse.Args args ->
  Argparse.consume argv None Argparse.default_voice Argparse.default_rate
    Argparse.default_pitch [] = Argparse.Args args.
Proof.
  unfold Argparse.parse_args.
  destruct (Argparse.ambiguous argv); [discriminate | trivial].
Qed.

Lemma parse_args_requested_session argv args :
  Argparse.parse_args argv = Argparse.Args args ->
  given Argparse.opt_text argv <> []
  /\ communicate_kwargs args = requested_session argv.
Proof.
  intros Hp. apply parse_args_consume in Hp.
  pose proof (consume_args argv _ _ _ _ _ _ Hp) as ((Hne & Ht) & Hv & Hr & Hpi).
  split; [exact Hne|].
  unfold communicate_kwargs, requested_session. now rewrite Ht, Hv, Hr, Hpi.
Qed.

(** *** Word-boundary entries carry their type *)

Lemma member_of_field c ms key v :
  Forall2 (fun kv m => fst m = Json.utf16 (fst kv)
                       /\ value_reads_as (snd kv) (snd m)) c ms ->
  dict_get c key = Some v ->
  exists j, In (Json.utf16 key, j) ms /\ value_reads_as v j.
Proof.
  induction 1 as [|[k w] [k' j] c ms [Hk Hv] Hrest IH]; intros Eg; [discriminate|].
  cbn [dict_get] in Eg. cbn [fst snd] in Hk, Hv.
  destruct (pystr_eqb k key) eqn:Ek.
  - apply pystr_eqb_eq in Ek. injection Eg as ->. subst k k'.
    exists j. split; [now left | assumption].
  - destruct (IH Eg) as (j' & Hin & Hj). exists j'. split; [now right | assumption].
Qed.

Lemma entries_carry_type cs es :
  Forall2 entry_of cs es ->
  Forall (fun c => is_word_boundary c = true) cs ->
  Forall (fun entry =>
            In (u "type", Json.JString (u "WordBoundary")) (members entry))
         es.
Proof.
  induction 1 as [|c entry cs es Hce Hrest IH]; intros Hwb; constructor.
  - inversion Hwb as [|? ? Hc1 _]; subst.
    destruct Hce as (ms & -> & Hms). cbn [members].
    unfold is_word_boundary in Hc1.
    destruct (dict_get c (u "type")) as [ty|] eqn:Eg; [|discriminate].
    apply eq_str_true in Hc1. subst ty.
    destruct (member_of_field c ms _ _ Hms Eg) as (j & Hin & Hj).
    cbn in Hj. subst j. exact Hin.
  - apply IH. now inversion Hwb.
Qed.

(** ** The contract of the bridge *)

(** C1. In every successful run, the [audio] field of the emitted JSON
    document, once base64-decoded, is the concatenation, in arrival order,
    of the payloads of the audio chunks of the stream. *)
Theorem audio_field_decodes_to_payloads rt argv args edge_tts s :
  Argparse.parse_args argv = Argparse.Args args ->
  edge_tts (communicate_kwargs args) = Ok s ->
  completes s ->
  exists line doc audio,
    stdout (main rt argv edge_tts) = line ++ newline
    /\ Json.loads line = Some doc
    /\ Json.field (u "audio") doc = Some (Json.JString audio)
    /\ Base64.b64decode audio
       = Some (concat (map payload (filter is_audio (chunks s)))).
Proof.
  intros Hp He Hc.
  destruct (successful_run rt argv args edge_tts s Hp He Hc)
    as (line & entries & Hmain & _ & Hloads & _).
  eexists line, _, _. rewrite Hmain. cbn [stdout].
  split; [reflexivity|]. split; [exact Hloads|].
  split; [reflexivity|].
  apply Base64Facts.b64decode_b64encode.
Qed.

Lemma audio_field_decodes_to_payloads_witness :
  completes sample_stream
  /\ exists line doc audio,
       stdout (main sample_runtime sample_argv sample_collaborator)
       = line ++ newline
       /\ Json.loads line = Some doc
       /\ Json.field (u "audio") doc = Some (Json.JString audio)
       /\ Base64.b64decode audio = Some [x01; x02].
Proof.
  assert (H : completes sample_stream)
    by (split; [reflexivity | repeat constructor]).
  split; [exact H|].
  exact (audio_field_decodes_to_payloads sample_runtime sample_argv sample_args
           sample_collaborator sample_stream eq_refl eq_refl H).
Defined.

(** C2, as the specification states it, fails on the scenario of the
    specification itself: the only entry of [boundaries] has four fields,
    the first of which is [type]. *)
Lemma boundary_entry_fields_counterexample :
  exists doc entry,
    Json.loads (stdout (main sample_runtime sample_argv sample_collaborator))
    = Some doc
    /\ Json.field (u "boundaries") doc = Some (Json.JArray [entry])
    /\ Json.keys entry = [u "type"; u "offset"; u "duration"; u "text"]
    /\ Json.keys entry <> [u "offset"; u "duration"; u "text"].
Proof.
  eexists _, _.
  split; [vm_compute; reflexivity|].
  split; [vm_compute; reflexivity|].
  split; [vm_compute; reflexivity|].
  vm_compute. discriminate.
Qed.

(** C2, amended. In every successful run, [boundaries] holds one entry per
    word-boundary chunk, in arrival order; an entry is the chunk as the
    collaborator yielded it, written whole: one member per field of the
    chunk, in the order of the chunk, under the same key and with the same
    value, the [type] field with its value [WordBoundary] included. *)
Theorem boundaries_in_arrival_order rt argv args edge_tts s :
  Argparse.parse_args argv = Argparse.Args args ->
  edge_tts (communicate_kwargs args) = Ok s ->
  completes s ->
  exists line doc entries,
    stdout (main rt argv edge_tts) = line ++ newline
    /\ Json.loads line = Some doc
    /\ Json.field (u "boundaries") doc = Some (Json.JArray entries)
    /\ Forall2 entry_of (filter is_word_boundary (chunks s)) entries
    /\ Forall (fun entry =>
                 In (u "type", Json.JString (u "WordBoundary")) (members entry))
              entries.
Proof.
  intros Hp He Hc.
  destruct (successful_run rt argv args edge_tts s Hp He Hc)
    as (line & entries & Hmain & _ & Hloads & Hentries).
  eexists line, _, entries. rewrite Hmain. cbn [stdout].
  split; [reflexivity|]. split; [exact Hloads|].
  split; [reflexivity|]. split; [exact Hentries|].
  apply entries_carry_type with (1 := Hentries).
  apply Forall_forall. intros c Hin. now apply filter_In in Hin.
Qed.

Lemma boundaries_in_arrival_order_witness :
  completes sample_stream
  /\ exists line doc entries,
       stdout (main sample_runtime sample_argv sample_collaborator)
       = line ++ newline
       /\ Json.loads line = Some doc
       /\ Json.field (u "boundaries") doc = Some (Json.JArray entries)
       /\ Forall2 entry_of [word_boundary_chunk 0 500000 (u "Hi")] entries
       /\ Forall (fun entry =>
                    In (u "type", Json.JString (u "WordBoundary"))
                       (members entry))
                 entries.
Proof.
  assert (H : completes sample_stream)
    by (split; [reflexivity | repeat constructor]).
  split; [exact H|].
  exact (boundaries_in_arrival_order sample_runtime sample_argv sample_args
           sample_collaborator sample_stream eq_refl eq_refl H).
Defined.

(** C3. When a fault is raised while the stream is drained, nothing is
    written on standard output, neither partial JSON nor what had been
    accumulated; standard error is not empty and the exit status is not
    zero. *)
Theorem drain_fault_discards_output rt argv args edge_tts s e :
  Argparse.parse_args argv = Argparse.Args args ->
  edge_tts (communicate_kwargs args) = Ok s ->
  async_for rt empty (chunks s) (ending s) = Raise e ->
  stdout (main rt argv edge_tts) = []
  /\ stderr (main rt argv edge_tts) = u "Error: " ++ exn_str e ++ newline
  /\ stderr (main rt argv edge_tts) <> []
  /\ exit_code (main rt argv edge_tts) = 1%Z
  /\ exit_code (main rt argv edge_tts) <> 0%Z.
Proof.
  intros Hp He Hd.
  assert (Ht : try_block rt s = Raise e) by (unfold try_block; now rewrite Hd).
  rewrite (main_raise rt argv args edge_tts s e Hp He Ht).
  cbn [stdout stderr exit_code].
  repeat split; try discriminate.
Qed.

Lemma drain_fault_discards_output_witness :
  stdout (main sample_runtime sample_argv (fun _ => Ok failing_stream)) = []
  /\ stderr (main sample_runtime sample_argv (fun _ => Ok failing_stream))
     = u "Error: " ++ u "No audio was received." ++ newline
  /\ stderr (main sample_runtime sample_argv (fun _ => Ok failing_stream)) <> []
  /\ exit_code (main sample_runtime sample_argv (fun _ => Ok failing_stream)) = 1%Z
  /\ exit_code (main sample_runtime sample_argv (fun _ => Ok failing_stream)) <> 0%Z.
Proof.
  exact (drain_fault_discards_output sample_runtime sample_argv sample_args
           (fun _ => Ok failing_stream) failing_stream no_audio_received
           eq_refl eq_refl eq_refl).
Defined.

(** C4, as the specification states it, fails when the parameters do not
    parse: a command line without [--text] ends with status 2, and what is
    written on standard error does not start with [Error: ]. *)
Lemma parse_failure_status_counterexample :
  exit_code (main sample_runtime [] sample_collaborator) = 2%Z
  /\ exit_code (main sample_runtime [] sample_collaborator) <> 1%Z
  /\ firstn 7 (stderr (main sample_runtime [] sample_collaborator))
     <> u "Error: ".
Proof.
  split; [reflexivity|]. split; [discriminate|]. vm_compute. discriminate.
Qed.

(** C4, amended. When a step of the guarded block faults (opening the
    streaming session, pulling or processing a chunk, encoding the result),
    the description of the fault is written on standard error after
    [Error: ] and the process exits with status 1.  A command line that does
    not parse is rejected by the argument parser instead: usage and message
    on standard error, status 2. *)
Theorem guarded_faults_are_reported rt argv edge_tts :
  (forall args s e,
      Argparse.parse_args argv = Argparse.Args args ->
      edge_tts (communicate_kwargs args) = Ok s ->
      try_block rt s = Raise e ->
      stdout (main rt argv edge_tts) = []
      /\ stderr (main rt argv edge_tts) = u "Error: " ++ exn_str e ++ newline
      /\ exit_code (main rt argv edge_tts) = 1%Z)
  /\ (forall message,
         Argparse.parse_args argv = Argparse.Error message ->
         stdout (main rt argv edge_tts) = []
         /\ stderr (main rt argv edge_tts)
            = format_usage rt ++ prog rt ++ u ": error: " ++ message ++ newline
         /\ exit_code (main rt argv edge_tts) = 2%Z).
Proof.
  split.
  - intros args s e Hp He Ht.
    rewrite (main_raise rt argv args edge_tts s e Hp He Ht). auto.
  - intros message Hp. unfold main. rewrite Hp. auto.
Qed.

Lemma guarded_faults_are_reported_witness :
  (stdout (main sample_runtime sample_argv (fun _ => Ok failing_stream)) = []
   /\ stderr (main sample_runtime sample_argv (fun _ => Ok failing_stream))
      = u "Error: " ++ u "No audio was received." ++ newline
   /\ exit_code (main sample_runtime sample_argv (fun _ => Ok failing_stream))
      = 1%Z)
  /\ (stdout (main sample_runtime [] sample_collaborator) = []
      /\ stderr (main sample_runtime [] sample_collaborator)
         = format_usage sample_runtime ++ prog sample_runtime ++ u ": error: "
             ++ Argparse.required_message ++ newline
      /\ exit_code (main sample_runtime [] sample_collaborator) = 2%Z).
Proof.
  split.
  - exact (proj1 (guarded_faults_are_reported sample_runtime sample_argv
                    (fun _ => Ok failing_stream))
             sample_args failing_stream no_audio_received
             eq_refl eq_refl eq_refl).
  - exact (proj2 (guarded_faults_are_reported sample_runtime []
                    sample_collaborator)
             Argparse.required_message eq_refl).
Defined.

(** C5. In every successful run, standard output is exactly one line, the
    line is valid JSON whose top-level keys are exactly [audio] and
    [boundaries], and the process exits with status 0. *)
Theorem success_prints_one_json_line rt argv args edge_tts s :
  Argparse.parse_args argv = Argparse.Args args ->
  edge_tts (communicate_kwargs args) = Ok s ->
  completes s ->
  exists line doc,
    stdout (main rt argv edge_tts) = line ++ newline
    /\ ~ In 10 line /\ ~ In 13 line
    /\ Json.loads line = Some doc
    /\ Json.keys doc = [u "audio"; u "boundaries"]
    /\ stderr (main rt argv edge_tts) = []
    /\ exit_code (main rt argv edge_tts) = 0%Z.
Proof.
  intros Hp He Hc.
  destruct (successful_run rt argv args edge_tts s Hp He Hc)
    as (line & entries & Hmain & Hprint & Hloads & _).
  eexists line, _. rewrite Hmain. cbn [stdout stderr exit_code].
  rewrite Forall_forall in Hprint.
  split; [reflexivity|].
  split; [intros H; apply Hprint in H; unfold printable in H; lia|].
  split; [intros H; apply Hprint in H; unfold printable in H; lia|].
  split; [exact Hloads|].
  repeat split.
Qed.

Lemma success_prints_one_json_line_witness :
  completes sample_stream
  /\ exists line doc,
       stdout (main sample_runtime sample_argv sample_collaborator)
       = line ++ newline
       /\ ~ In 10 line /\ ~ In 13 line
       /\ Json.loads line = Some doc
       /\ Json.keys doc = [u "audio"; u "boundaries"]
       /\ stderr (main sample_runtime sample_argv sample_collaborator) = []
       /\ exit_code (main sample_runtime sample_argv sample_collaborator) = 0%Z.
Proof.
  assert (H : completes sample_stream)
    by (split; [reflexivity | repeat constructor]).
  split; [exact H|].
  exact (success_prints_one_json_line sample_runtime sample_argv sample_args
           sample_collaborator sample_stream eq_refl eq_refl H).
Defined.

(** C6. When the stream completes without an audio chunk, [audio] decodes
    to no bytes; when it completes without a word-boundary chunk,
    [boundaries] is the empty sequence; the run is a success in both
    cases. *)
Theorem empty_results_are_not_errors rt argv args edge_tts s :
  Argparse.parse_args argv = Argparse.Args args ->
  edge_tts (communicate_kwargs args) = Ok s ->
  completes s ->
  exists line doc,
    stdout (main rt argv edge_tts) = line ++ newline
    /\ Json.loads line = Some doc
    /\ stderr (main rt argv edge_tts) = []
    /\ exit_code (main rt argv edge_tts) = 0%Z
    /\ (filter is_audio (chunks s) = [] ->
        exists audio,
          Json.field (u "audio") doc = Some (Json.JString audio)
          /\ Base64.b64decode audio = Some [])
    /\ (filter is_word_boundary (chunks s) = [] ->
        Json.field (u "boundaries") doc = Some (Json.JArray [])).
Proof.
  intros Hp He Hc.
  destruct (successful_run rt argv args edge_tts s Hp He Hc)
    as (line & entries & Hmain & _ & Hloads & Hentries).
  eexists line, _. rewrite Hmain. cbn [stdout stderr exit_code].
  split; [reflexivity|]. split; [exact Hloads|].
  split; [reflexivity|]. split; [reflexivity|].
  split.
  - intros Ha. eexists. split; [reflexivity|].
    rewrite Ha. reflexivity.
  - intros Hb. rewrite Hb in Hentries. inversion Hentries. reflexivity.
Qed.

Lemma empty_results_are_not_errors_witness :
  completes silent_stream
  /\ exists line doc,
       stdout (main sample_runtime sample_argv (fun _ => Ok silent_stream))
       = line ++ newline
       /\ Json.loads line = Some doc
       /\ exit_code (main sample_runtime sample_argv (fun _ => Ok silent_stream))
          = 0%Z
       /\ (exists audio,
              Json.field (u "audio") doc = Some (Json.JString audio)
              /\ Base64.b64decode audio = Some [])
       /\ Json.field (u "boundaries") doc = Some (Json.JArray []).
Proof.
  assert (H : completes silent_stream) by (split; [reflexivity | constructor]).
  split; [exact H|].
  destruct (empty_results_are_not_errors sample_runtime sample_argv sample_args
              (fun _ => Ok silent_stream) silent_stream eq_refl eq_refl H)
    as (line & doc & H1 & H2 & _ & H4 & H5 & H6).
  exists line, doc.
  exact (conj H1 (conj H2 (conj H4 (conj (H5 eq_refl) (H6 eq_refl))))).
Defined.

(** C7. A chunk whose kind is neither audio nor word boundary leaves both
    accumulators as they were. *)
Theorem other_chunks_are_ignored rt acc chunk kind :
  dict_get chunk (u "type") = Some kind ->
  eq_str kind (u "audio") = false ->
  eq_str kind (u "WordBoundary") = false ->
  loop_body rt acc chunk = Ok acc.
Proof.
  intros Hk Ha Hw. unfold loop_body, getitem.
  rewrite Hk. cbn [bind]. rewrite Ha. cbn [bind]. now rewrite Hw.
Qed.

Lemma other_chunks_are_ignored_witness :
  loop_body sample_runtime
    {| audio_data := [x01; x02];
       boundaries := [word_boundary_chunk 0 500000 (u "Hi")] |}
    sentence_boundary_chunk
  = Ok {| audio_data := [x01; x02];
          boundaries := [word_boundary_chunk 0 500000 (u "Hi")] |}.
Proof.
  exact (other_chunks_are_ignored sample_runtime _ sentence_boundary_chunk
           (PyStr (u "SentenceBoundary")) eq_refl eq_refl eq_refl).
Defined.

(** C8. When the parameters parse, [--text] was given, and [main] calls
    the collaborator with exactly these arguments: the last value given for
    each option, the voice [en-US-GuyNeural], the rate [+0%] and the pitch
    [+0Hz] where none was given, and the request for [WordBoundary]
    events.  What the collaborator answers to them decides the run: an
    exception leaves the script uncaught; a session is the one whose
    stream is drained.  Nothing else of the collaborator is consulted. *)
Theorem session_configured_from_arguments argv args :
  Argparse.parse_args argv = Argparse.Args args ->
  let session :=
    {| kw_text := last (given Argparse.opt_text argv) [];
       kw_voice := last (given Argparse.opt_voice argv) (u "en-US-GuyNeural");
       kw_rate := last (given Argparse.opt_rate argv) (u "+0%");
       kw_pitch := last (given Argparse.opt_pitch argv) (u "+0Hz");
       kw_boundary := u "WordBoundary" |} in
  given Argparse.opt_text argv <> []
  /\ communicate_kwargs args = session
  /\ (forall rt edge_tts e,
        edge_tts session = Raise e ->
        main rt argv edge_tts
        = {| stdout := []; stderr := traceback rt e; exit_code := 1 |})
  /\ (forall rt edge_tts communicate,
        edge_tts session = Ok communicate ->
        main rt argv edge_tts
        = match try_block rt communicate with
          | Ok line =>
              {| stdout := line ++ newline; stderr := []; exit_code := 0 |}
          | Raise e =>
              {| stdout := [];
                 stderr := u "Error: " ++ exn_str e ++ newline;
                 exit_code := 1 |}
          end)
  /\ forall rt edge_tts edge_tts',
       edge_tts session = edge_tts' session ->
       main rt argv edge_tts = main rt argv edge_tts'.
Proof.
  intros Hp session.
  destruct (parse_args_requested_session argv args Hp) as [Hne Hk].
  change (requested_session argv) with session in Hk.
  split; [assumption|].
  split; [assumption|].
  split; [|split].
  - intros rt edge_tts e He. unfold main. now rewrite Hp, Hk, He.
  - intros rt edge_tts communicate Hc. unfold main. now rewrite Hp, Hk, Hc.
  - intros rt c1 c2 Hc. unfold main. now rewrite Hp, Hk, Hc.
Qed.

Lemma session_configured_from_arguments_witness :
  let session :=
    {| kw_text := u "Hi";
       kw_voice := u "en-US-GuyNeural";
       kw_rate := u "+0%";
       kw_pitch := u "+0Hz";
       kw_boundary := u "WordBoundary" |} in
  given Argparse.opt_text verbose_argv <> []
  /\ communicate_kwargs sample_args = session
  /\ (forall rt edge_tts e,
        edge_tts session = Raise e ->
        main rt verbose_argv edge_tts
        = {| stdout := []; stderr := traceback rt e; exit_code := 1 |})
  /\ (forall rt edge_tts communicate,
        edge_tts session = Ok communicate ->
        main rt verbose_argv edge_tts
        = match try_block rt communicate with
          | Ok line =>
              {| stdout := line ++ newline; stderr := []; exit_code := 0 |}
          | Raise e =>
              {| stdout := [];
                 stderr := u "Error: " ++ exn_str e ++ newline;
                 exit_code := 1 |}
          end)
  /\ forall rt edge_tts edge_tts',
       edge_tts session = edge_tts' session ->
       main rt verbose_argv edge_tts = main rt verbose_argv edge_tts'.
Proof.
  exact (session_configured_from_arguments verbose_argv sample_args eq_refl).
Defined.

(** C9. Two runs with the same request parameters and the same sequence of
    stream chunks write the same bytes on standard output, whatever the
    interpreter's own texts and however the command line spelled the
    request. *)
Theorem stdout_is_deterministic rt rt' argv argv' args edge_tts edge_tts' s :
  Argparse.parse_args argv = Argparse.Args args ->
  Argparse.parse_args argv' = Argparse.Args args ->
  edge_tts (communicate_kwargs args) = Ok s ->
  edge_tts' (communicate_kwargs args) = Ok s ->
  stdout (main rt argv edge_tts) = stdout (main rt' argv' edge_tts').
Proof.
  intros Hp Hp' He He'. unfold main. rewrite Hp, Hp', He, He'.
  pose proof (try_block_agree rt rt' s) as H.
  destruct (try_block rt s), (try_block rt' s); cbn in H; try contradiction;
    cbn [stdout]; congruence.
Qed.

Lemma stdout_is_deterministic_witness :
  stdout (main sample_runtime sample_argv sample_collaborator)
  = stdout (main terse_runtime verbose_argv (fun _ => Ok sample_stream)).
Proof.
  exact (stdout_is_deterministic sample_runtime terse_runtime sample_argv
           verbose_argv sample_args sample_collaborator
           (fun _ => Ok sample_stream) sample_stream
           eq_refl eq_refl eq_refl eq_refl).
Defined.

(** C10. Throughout the loop both accumulators only grow at the end:
    whatever chunks are still to come, what the accumulators hold when the
    loop is over is what they hold now, followed by the payloads of the
    audio chunks to come and by the word-boundary chunks to come, in
    order. *)
Theorem accumulators_are_append_only rt acc cs fin acc' :
  async_for rt acc cs fin = Ok acc' ->
  audio_data acc'
  = audio_data acc ++ concat (map payload (filter is_audio cs))
  /\ boundaries acc' = boundaries acc ++ filter is_word_boundary cs.
Proof.
  intros H. now apply async_for_ok in H as (_ & Ha & Hb).
Qed.

Lemma accumulators_are_append_only_witness :
  [x07; x01; x02] = [x07] ++ concat [[x01; x02]]
  /\ [sentence_boundary_chunk; word_boundary_chunk 0 500000 (u "Hi")]
     = [sentence_boundary_chunk] ++ [word_boundary_chunk 0 500000 (u "Hi")].
Proof.
  exact (accumulators_are_append_only sample_runtime
           {| audio_data := [x07]; boundaries := [sentence_boundary_chunk] |}
           (chunks sample_stream) StopAsyncIteration
           {| audio_data := [x07; x01; x02];
              boundaries := [sentence_boundary_chunk;
                             word_boundary_chunk 0 500000 (u "Hi")] |}
           eq_refl).
Defined.

(** ** Edge and fault behaviour: auxiliary facts *)

(** *** The command line, case by case *)

Lemma consume_stops items : forall t v r p extras,
  Argparse.ambiguous items = None ->
  Argparse.consume items t v r p extras
  = match first_stop items with
    | Some StopHelp => Argparse.PrintHelp
    | Some (StopMissing o) => Argparse.Error (Argparse.expected_message o)
    | Some (StopIgnored x) => Argparse.Error (Argparse.ignored_message x)
    | None =>
        Argparse.consume []
          (match given Argparse.opt_text items with
           | [] => t
           | x :: l => Some (last (x :: l) [])
           end)
          (last (given Argparse.opt_voice items) v)
          (last (given Argparse.opt_rate items) r)
          (last (given Argparse.opt_pitch items) p)
          (extras ++ unrecognized items)
    end.
Proof.
  induction items as [|[[| | |] x| |a|o|x|a] items IH];
    intros t v r p extras H; cbn [Argparse.ambiguous] in H;
    try discriminate; try reflexivity.
  - cbn [given unrecognized last first_stop]. now rewrite List.app_nil_r.
  - cbn [Argparse.consume first_stop]. rewrite IH by exact H.
    cbn [given option_string_eqb unrecognized].
    destruct (first_stop items) as [[]|]; try reflexivity.
    destruct (given Argparse.opt_text items) as [|y l] eqn:E; reflexivity.
  - cbn [Argparse.consume first_stop]. rewrite IH by exact H.
    cbn [given option_string_eqb unrecognized]. now rewrite last_cons.
  - cbn [Argparse.consume first_stop]. rewrite IH by exact H.
    cbn [given option_string_eqb unrecognized]. now rewrite last_cons.
  - cbn [Argparse.consume first_stop]. rewrite IH by exact H.
    cbn [given option_string_eqb unrecognized]. now rewrite last_cons.
  - cbn [Argparse.consume first_stop]. rewrite IH by exact H.
    cbn [given unrecognized]. now rewrite <- List.app_assoc.
Qed.

Lemma parse_args_cases argv :
  Argparse.parse_args argv
  = match Argparse.ambiguous argv with
    | Some arg => Argparse.Error (Argparse.ambiguous_message arg)
    | None =>
        match first_stop argv with
        | Some StopHelp => Argparse.PrintHelp
        | Some (StopMissing o) =>
            Argparse.Error (Argparse.expected_message o)
        | Some (StopIgnored shown) =>
            Argparse.Error (Argparse.ignored_message shown)
        | None =>
            match given Argparse.opt_text argv with
            | [] => Argparse.Error Argparse.required_message
            | x :: l =>
                match unrecognized argv with
                | [] =>
                    Argparse.Args
                      {| Argparse.text := last (x :: l) [];
                         Argparse.voice :=
                           last (given Argparse.opt_voice argv)
                             Argparse.default_voice;
                         Argparse.rate :=
                           last (given Argparse.opt_rate argv)
                             Argparse.default_rate;
                         Argparse.pitch :=
                           last (given Argparse.opt_pitch argv)
                             Argparse.default_pitch |}
                | a :: extras =>
                    Argparse.Error
                      (Argparse.unrecognized_message (a :: extras))
                end
            end
        end
    end.
Proof.
  unfold Argparse.parse_args.
  destruct (Argparse.ambiguous argv) as [arg|] eqn:H; [reflexivity|].
  rewrite consume_stops by exact H.
  destruct (first_stop argv) as [[]|]; try reflexivity.
  cbn [List.app Argparse.consume].
  destruct (given Argparse.opt_text argv); [reflexivity|].
  destruct (unrecognized argv); reflexivity.
Qed.

Lemma first_stop_help argv :
  first_stop argv = Some StopHelp -> has_help argv = true.
Proof.
  induction argv as [|[[| | |] x| |a|o|x|a] argv IH];
    cbn [first_stop]; intros H; try discriminate; try reflexivity;
    exact (IH H).
Qed.

Lemma parse_args_help argv :
  Argparse.parse_args argv = Argparse.PrintHelp <-> help_requested argv = true.
Proof.
  rewrite parse_args_cases. unfold help_requested.
  destruct (Argparse.ambiguous argv); [split; discriminate|].
  destruct (first_stop argv) as [[]|]; try (split; [discriminate|discriminate]);
    try (split; reflexivity).
  destruct (given Argparse.opt_text argv); [split; discriminate|].
  destruct (unrecognized argv); split; discriminate.
Qed.

Lemma help_requested_has_help argv :
  help_requested argv = true -> has_help argv = true.
Proof.
  unfold help_requested.
  destruct (Argparse.ambiguous argv); [discriminate|].
  destruct (first_stop argv) as [[]|] eqn:E; try discriminate.
  intros _. now apply first_stop_help.
Qed.

Section MoreFacts.

Variable rt : Runtime.

(** *** The loop, part by part *)

Lemma async_for_app a : forall acc b fin,
  async_for rt acc (a ++ b) fin
  = bind (async_for rt acc a StopAsyncIteration)
         (fun acc' => async_for rt acc' b fin).
Proof.
  induction a as [|c a IH]; intros acc b fin; cbn [List.app async_for bind].
  - reflexivity.
  - destruct (loop_body rt acc c) as [acc1|e]; cbn [bind]; [apply IH | reflexivity].
Qed.

Lemma first_fault before bad after fin acc acc1 e :
  async_for rt acc before StopAsyncIteration = Ok acc1 ->
  loop_body rt acc1 bad = Raise e ->
  async_for rt acc (before ++ bad :: after) fin = Raise e.
Proof.
  intros Hb He. rewrite async_for_app, Hb. cbn [bind async_for].
  now rewrite He.
Qed.

Lemma loop_body_processable acc chunk :
  processable chunk = true -> exists acc', loop_body rt acc chunk = Ok acc'.
Proof.
  unfold processable, loop_body, getitem.
  destruct (dict_get chunk (u "type")) as [ty|]; cbn [bind]; [|discriminate].
  destruct (eq_str ty (u "audio")).
  - destruct (dict_get chunk (u "data")) as [[[|c s]|z|b]|]; cbn [bind extend extendable];
      try discriminate; eauto.
  - cbn [bind]. destruct (eq_str ty (u "WordBoundary")); eauto.
Qed.

Lemma well_formed_processable chunk :
  well_formed chunk = true -> processable chunk = true.
Proof.
  unfold well_formed, processable.
  destruct (dict_get chunk (u "type")) as [ty|]; [|discriminate].
  destruct (eq_str ty (u "audio")); auto.
Qed.

Lemma async_for_processable cs : forall acc,
  Forall (fun chunk => processable chunk = true) cs ->
  exists acc',
    async_for rt acc cs StopAsyncIteration = Ok acc'
    /\ forall e, async_for rt acc cs (StreamRaises e) = Raise e.
Proof.
  induction cs as [|c cs IH]; intros acc H; cbn [async_for].
  - eauto.
  - inversion H as [|? ? Hc Hcs]; subst.
    destruct (loop_body_processable acc c Hc) as [acc1 ->]. cbn [bind].
    now apply IH.
Qed.

Lemma loop_body_irrelevant acc chunk :
  has_type chunk = true -> relevant chunk = false ->
  loop_body rt acc chunk = Ok acc.
Proof.
  unfold has_type, relevant, is_audio, is_word_boundary, loop_body, getitem.
  destruct (dict_get chunk (u "type")) as [ty|]; [|discriminate].
  intros _ H. apply orb_false_iff in H as [Ha Hw].
  cbn [bind]. rewrite Ha. cbn [bind]. now rewrite Hw.
Qed.

Lemma async_for_filter_relevant cs : forall acc fin,
  Forall (fun chunk => has_type chunk = true) cs ->
  async_for rt acc (filter relevant cs) fin = async_for rt acc cs fin.
Proof.
  induction cs as [|c cs IH]; intros acc fin H; [reflexivity|].
  inversion H as [|? ? Hc Hcs]; subst.
  cbn [filter async_for].
  destruct (relevant c) eqn:E.
  - cbn [async_for]. destruct (loop_body rt acc c); cbn [bind]; [now apply IH | reflexivity].
  - rewrite (loop_body_irrelevant acc c Hc E). cbn [bind]. now apply IH.
Qed.

(** *** The encoder on bytes *)

Lemma dumps_dict_bytes d :
  carries_bytes d = true ->
  dumps_dict rt d = Raise (TypeError (not_serializable_message rt)).
Proof.
  induction d as [|[k v] d IH]; cbn [carries_bytes existsb snd dumps_dict];
    [discriminate|].
  destruct v; cbn [serializable negb orb dumps_value bind]; try reflexivity;
    intros H; fold (carries_bytes d) in H; rewrite (IH H); reflexivity.
Qed.

Lemma dumps_dict_total d :
  (exists m, dumps_dict rt d = Ok m)
  \/ dumps_dict rt d = Raise (TypeError (not_serializable_message rt)).
Proof.
  destruct (carries_bytes d) eqn:E.
  - right. now apply dumps_dict_bytes.
  - left. apply dumps_dict_ok.
    unfold carries_bytes in E.
    apply forallb_forall. intros kv Hin.
    destruct (serializable (snd kv)) eqn:Es; [reflexivity|].
    assert (existsb (fun kv => negb (serializable (snd kv))) d = true).
    { apply existsb_exists. exists kv. split; [assumption | now rewrite Es]. }
    congruence.
Qed.

Lemma dumps_list_bytes l :
  existsb carries_bytes l = true ->
  dumps_list rt l = Raise (TypeError (not_serializable_message rt)).
Proof.
  induction l as [|d l IH]; cbn [existsb dumps_list]; [discriminate|].
  intros H.
  destruct (dumps_dict_total d) as [[m Hm]|Hr].
  - rewrite Hm. cbn [bind].
    destruct (carries_bytes d) eqn:E.
    + rewrite (dumps_dict_bytes d E) in Hm. discriminate.
    + cbn [orb] in H. now rewrite (IH H).
  - now rewrite Hr.
Qed.

(** *** Two streams with the same content *)

Lemma try_block_same_content s1 s2 :
  completes s1 -> completes s2 ->
  concat (map payload (filter is_audio (chunks s1)))
  = concat (map payload (filter is_audio (chunks s2))) ->
  filter is_word_boundary (chunks s1) = filter is_word_boundary (chunks s2) ->
  exists line, try_block rt s1 = Ok line /\ try_block rt s2 = Ok line.
Proof.
  intros H1 H2 Ha Hb.
  destruct (try_block_completes rt s1 H1) as [l1 E1].
  destruct (try_block_completes rt s2 H2) as [l2 E2].
  destruct (try_block_ok rt s1 l1 E1) as (_ & js1 & Hj1 & ->).
  destruct (try_block_ok rt s2 l2 E2) as (_ & js2 & Hj2 & ->).
  rewrite Ha, Hb in *. rewrite Hj2 in Hj1. injection Hj1 as ->.
  eauto.
Qed.

Lemma try_block_printable s line :
  try_block rt s = Ok line -> Forall printable line.
Proof.
  intros H. destruct (try_block_ok rt s line H) as (_ & js & _ & ->).
  apply JsonFacts.encode_printable.
Qed.

End MoreFacts.

(** *** Base64 text *)

Lemma b64_plain c :
  In c (Base64.pad :: Base64.alphabet) -> Json.encode_char c = [c].
Proof.
  unfold Base64.pad, Base64.alphabet. cbn [In].
  intros H. repeat (destruct H as [<-|H]; [reflexivity|]). destruct H.
Qed.

Lemma b64char_in_alphabet i :
  In (Base64.b64char i) (Base64.pad :: Base64.alphabet).
Proof.
  unfold Base64.b64char.
  destruct (nth_in_or_default (N.to_nat i) Base64.alphabet Base64.pad) as [H| ->].
  - now right.
  - now left.
Qed.

Lemma b64encode_in_alphabet bs :
  Forall (fun c => In c (Base64.pad :: Base64.alphabet)) (Base64.b64encode bs).
Proof.
  induction bs as [|a|a b|a b c l IH] using Base64Facts.list_ind3;
    cbn [Base64.b64encode];
    repeat (constructor; try apply b64char_in_alphabet);
    try assumption; now left.
Qed.

Lemma flat_map_plain s :
  Forall (fun c => Json.encode_char c = [c]) s ->
  flat_map Json.encode_char s = s.
Proof.
  induction 1 as [|c s Hc Hs IH]; [reflexivity|].
  cbn [flat_map]. now rewrite Hc, IH.
Qed.

(** ** Edge and fault behaviour of the bridge *)

(** X1. Every run exits with status 0, 1 or 2; with status 0 nothing is
    written on standard error, and with any other status nothing is written
    on standard output: the two streams are never both used. *)
Theorem status_and_streams rt argv edge_tts :
  (exit_code (main rt argv edge_tts) = 0
   \/ exit_code (main rt argv edge_tts) = 1
   \/ exit_code (main rt argv edge_tts) = 2)%Z
  /\ (exit_code (main rt argv edge_tts) = 0%Z ->
      stderr (main rt argv edge_tts) = [])
  /\ (exit_code (main rt argv edge_tts) <> 0%Z ->
      stdout (main rt argv edge_tts) = []).
Proof.
  unfold main, parser_error, uncaught.
  destruct (Argparse.parse_args argv) as [args| |message];
    [destruct (edge_tts (communicate_kwargs args)) as [s|e];
     [destruct (try_block rt s) as [line|e]|]| |];
    cbn [stdout stderr exit_code];
    (split; [auto|]); split; intros H; congruence.
Qed.

(** X2. The command line, case by case.  An ambiguous option string
    anywhere is reported first.  Otherwise the first help request, option
    without its value, or help request with a value decides: help is
    printed, or the error is reported.  Otherwise a missing [--text] is
    reported, before any argument that is not recognised; otherwise such
    arguments are reported; otherwise each option has the last value given
    for it, or its default. *)
Theorem command_line_cases argv :
  Argparse.parse_args argv
  = match Argparse.ambiguous argv with
    | Some arg => Argparse.Error (Argparse.ambiguous_message arg)
    | None =>
        match first_stop argv with
        | Some StopHelp => Argparse.PrintHelp
        | Some (StopMissing o) =>
            Argparse.Error (Argparse.expected_message o)
        | Some (StopIgnored shown) =>
            Argparse.Error (Argparse.ignored_message shown)
        | None =>
            match given Argparse.opt_text argv with
            | [] => Argparse.Error Argparse.required_message
            | x :: l =>
                match unrecognized argv with
                | [] =>
                    Argparse.Args
                      {| Argparse.text := last (x :: l) [];
                         Argparse.voice :=
                           last (given Argparse.opt_voice argv)
                             Argparse.default_voice;
                         Argparse.rate :=
                           last (given Argparse.opt_rate argv)
                             Argparse.default_rate;
                         Argparse.pitch :=
                           last (given Argparse.opt_pitch argv)
                             Argparse.default_pitch |}
                | a :: extras =>
                    Argparse.Error
                      (Argparse.unrecognized_message (a :: extras))
                end
            end
        end
    end.
Proof.
  apply parse_args_cases.
Qed.

(** X3. A help request that comes before any option without its value and
    any help request with a value, on a command line with no ambiguous
    option string, prints the help text and ends the run with status 0,
    whatever else the command line holds (no [--text], arguments that are
    not recognised, errors further on); the collaborator is not
    contacted. *)
Theorem help_request_wins rt argv edge_tts :
  Argparse.ambiguous argv = None ->
  first_stop argv = Some StopHelp ->
  main rt argv edge_tts
  = {| stdout := format_help rt; stderr := []; exit_code := 0 |}.
Proof.
  intros Ha Hs. unfold main.
  now rewrite parse_args_cases, Ha, Hs.
Qed.

Lemma help_request_wins_witness :
  main sample_runtime
    [Argparse.Unrecognized (u "bogus"); Argparse.HelpFlag;
     Argparse.MissingValue Argparse.opt_rate]
    (fun _ => Ok failing_stream)
  = {| stdout := format_help sample_runtime; stderr := []; exit_code := 0 |}.
Proof.
  exact (help_request_wins sample_runtime
           [Argparse.Unrecognized (u "bogus"); Argparse.HelpFlag;
            Argparse.MissingValue Argparse.opt_rate]
           (fun _ => Ok failing_stream) eq_refl eq_refl).
Defined.

(** X4. The first fault is the one reported: when the body of the loop
    raises on a chunk, the run ends there with the description of that
    fault, whatever chunks would have followed and however the stream would
    have ended. *)
Theorem first_fault_is_reported rt argv args edge_tts s before bad after acc e :
  Argparse.parse_args argv = Argparse.Args args ->
  edge_tts (communicate_kwargs args) = Ok s ->
  chunks s = before ++ bad :: after ->
  async_for rt empty before StopAsyncIteration = Ok acc ->
  loop_body rt acc bad = Raise e ->
  main rt argv edge_tts
  = {| stdout := [];
       stderr := u "Error: " ++ exn_str e ++ newline;
       exit_code := 1 |}.
Proof.
  intros Hp He Hc Hb Hbad.
  apply main_raise with args s; try assumption.
  unfold try_block. rewrite Hc.
  now rewrite (first_fault rt before bad after (ending s) empty acc e Hb Hbad).
Qed.

Lemma first_fault_is_reported_witness :
  main sample_runtime sample_argv
    (fun _ => Ok {| chunks := [audio_chunk [x01; x02]; typeless_chunk;
                               dataless_audio_chunk];
                    ending := StreamRaises no_audio_received |})
  = {| stdout := [];
       stderr := u "Error: " ++ exn_str (KeyError (u "type")) ++ newline;
       exit_code := 1 |}.
Proof.
  exact (first_fault_is_reported sample_runtime sample_argv sample_args _
           {| chunks := [audio_chunk [x01; x02]; typeless_chunk;
                         dataless_audio_chunk];
              ending := StreamRaises no_audio_received |}
           [audio_chunk [x01; x02]] typeless_chunk [dataless_audio_chunk]
           {| audio_data := [x01; x02]; boundaries := [] |}
           (KeyError (u "type"))
           eq_refl eq_refl eq_refl eq_refl eq_refl).
Defined.

(** X5. A chunk without a [type] key, reached after chunks the loop
    accepted, ends the run with [Error: 'type'] on standard error and
    status 1. *)
Theorem chunk_without_type rt argv args edge_tts s before bad after :
  Argparse.parse_args argv = Argparse.Args args ->
  edge_tts (communicate_kwargs args) = Ok s ->
  chunks s = before ++ bad :: after ->
  Forall (fun chunk => processable chunk = true) before ->
  dict_get bad (u "type") = None ->
  main rt argv edge_tts
  = {| stdout := [];
       stderr := u "Error: 'type'" ++ newline;
       exit_code := 1 |}.
Proof.
  intros Hp He Hc Hb Hbad.
  destruct (async_for_processable rt before empty Hb) as (acc & Hacc & _).
  apply main_raise with (e := KeyError (u "type")) (args := args) (s := s);
    try assumption.
  unfold try_block. rewrite Hc.
  rewrite (first_fault rt before bad after (ending s) empty acc
             (KeyError (u "type")) Hacc); [reflexivity|].
  unfold loop_body, getitem. now rewrite Hbad.
Qed.

Lemma chunk_without_type_witness :
  main sample_runtime sample_argv
    (fun _ => Ok {| chunks := [audio_chunk [x01; x02]; typeless_chunk];
                    ending := StopAsyncIteration |})
  = {| stdout := [];
       stderr := u "Error: 'type'" ++ newline;
       exit_code := 1 |}.
Proof.
  apply (chunk_without_type sample_runtime sample_argv sample_args _
           {| chunks := [audio_chunk [x01; x02]; typeless_chunk];
              ending := StopAsyncIteration |}
           [audio_chunk [x01; x02]] typeless_chunk []);
    try reflexivity; repeat constructor.
Defined.

(** X6. An audio chunk without a [data] key, reached after chunks the loop
    accepted, ends the run with [Error: 'data'] on standard error and
    status 1. *)
Theorem audio_chunk_without_data rt argv args edge_tts s before bad after :
  Argparse.parse_args argv = Argparse.Args args ->
  edge_tts (communicate_kwargs args) = Ok s ->
  chunks s = before ++ bad :: after ->
  Forall (fun chunk => processable chunk = true) before ->
  is_audio bad = true ->
  dict_get bad (u "data") = None ->
  main rt argv edge_tts
  = {| stdout := [];
       stderr := u "Error: 'data'" ++ newline;
       exit_code := 1 |}.
Proof.
  intros Hp He Hc Hb Haudio Hdata.
  destruct (async_for_processable rt before empty Hb) as (acc & Hacc & _).
  apply main_raise with (e := KeyError (u "data")) (args := args) (s := s);
    try assumption.
  unfold try_block. rewrite Hc.
  rewrite (first_fault rt before bad after (ending s) empty acc
             (KeyError (u "data")) Hacc); [reflexivity|].
  unfold is_audio in Haudio. unfold loop_body, getitem.
  destruct (dict_get bad (u "type")) as [ty|]; [|discriminate].
  cbn [bind]. rewrite Haudio, Hdata. reflexivity.
Qed.

Lemma audio_chunk_without_data_witness :
  main sample_runtime sample_argv
    (fun _ => Ok {| chunks := [dataless_audio_chunk]; ending := StopAsyncIteration |})
  = {| stdout := [];
       stderr := u "Error: 'data'" ++ newline;
       exit_code := 1 |}.
Proof.
  apply (audio_chunk_without_data sample_runtime sample_argv sample_args _
           {| chunks := [dataless_audio_chunk]; ending := StopAsyncIteration |}
           [] dataless_audio_chunk []);
    try reflexivity; constructor.
Defined.

(** X7. When the loop accepts every chunk and the stream then raises, what
    standard error receives is the description of the collaborator's own
    fault. *)
Theorem stream_fault_description rt argv args edge_tts s e :
  Argparse.parse_args argv = Argparse.Args args ->
  edge_tts (communicate_kwargs args) = Ok s ->
  Forall (fun chunk => processable chunk = true) (chunks s) ->
  ending s = StreamRaises e ->
  main rt argv edge_tts
  = {| stdout := [];
       stderr := u "Error: " ++ exn_str e ++ newline;
       exit_code := 1 |}.
Proof.
  intros Hp He Hc Hend.
  apply main_raise with args s; try assumption.
  destruct (async_for_processable rt (chunks s) empty Hc) as (acc & _ & Hr).
  unfold try_block. now rewrite Hend, Hr.
Qed.

Lemma stream_fault_description_witness :
  main sample_runtime sample_argv (fun _ => Ok failing_stream)
  = {| stdout := [];
       stderr := u "Error: " ++ u "No audio was received." ++ newline;
       exit_code := 1 |}.
Proof.
  apply (stream_fault_description sample_runtime sample_argv sample_args _
           failing_stream no_audio_received);
    try reflexivity; repeat constructor.
Defined.

(** X8. A word-boundary chunk that carries a [bytes] value passes the loop
    and makes the encoder raise once the stream is over: the run ends with
    status 1 and nothing on standard output, although the stream completed
    normally. *)
Theorem bytes_in_word_boundary rt argv args edge_tts s :
  Argparse.parse_args argv = Argparse.Args args ->
  edge_tts (communicate_kwargs args) = Ok s ->
  Forall (fun chunk => processable chunk = true) (chunks s) ->
  ending s = StopAsyncIteration ->
  existsb carries_bytes (filter is_word_boundary (chunks s)) = true ->
  main rt argv edge_tts
  = {| stdout := [];
       stderr := u "Error: " ++ not_serializable_message rt ++ newline;
       exit_code := 1 |}.
Proof.
  intros Hp He Hc Hend Hbytes.
  apply main_raise with (e := TypeError (not_serializable_message rt))
                        (args := args) (s := s); try assumption.
  destruct (async_for_processable rt (chunks s) empty Hc) as (acc & Hacc & _).
  unfold try_block, json_dumps. rewrite Hend, Hacc. cbn [bind].
  apply async_for_ok in Hacc as (_ & _ & Hb).
  cbn [empty boundaries List.app] in Hb. rewrite Hb.
  now rewrite dumps_list_bytes.
Qed.

Lemma bytes_in_word_boundary_witness :
  main sample_runtime sample_argv
    (fun _ => Ok {| chunks := [audio_chunk [x01; x02]; bytes_boundary_chunk];
                    ending := StopAsyncIteration |})
  = {| stdout := [];
       stderr := u "Error: " ++ not_serializable_message sample_runtime ++ newline;
       exit_code := 1 |}.
Proof.
  apply (bytes_in_word_boundary sample_runtime sample_argv sample_args _
           {| chunks := [audio_chunk [x01; x02]; bytes_boundary_chunk];
              ending := StopAsyncIteration |});
    try reflexivity; repeat constructor.
Defined.

(** X9. Chunks of kinds the loop does not act on are invisible: when every
    chunk has a type, a stream and the same stream without those chunks give
    the same run, faults included. *)
Theorem other_kinds_are_invisible rt argv edge_tts edge_tts' s s' :
  (forall kwargs, edge_tts kwargs = Ok s) ->
  (forall kwargs, edge_tts' kwargs = Ok s') ->
  Forall (fun chunk => has_type chunk = true) (chunks s) ->
  chunks s' = filter relevant (chunks s) ->
  ending s' = ending s ->
  main rt argv edge_tts' = main rt argv edge_tts.
Proof.
  intros He He' Ht Hc Hend. unfold main.
  destruct (Argparse.parse_args argv) as [args| |message]; try reflexivity.
  rewrite He, He'.
  assert (E : try_block rt s' = try_block rt s).
  { unfold try_block. rewrite Hc, Hend.
    now rewrite async_for_filter_relevant. }
  now rewrite E.
Qed.

Lemma other_kinds_are_invisible_witness :
  main sample_runtime sample_argv
    (fun _ => Ok {| chunks := [audio_chunk [x01; x02]];
                    ending := StreamRaises no_audio_received |})
  = main sample_runtime sample_argv
      (fun _ => Ok {| chunks := [sentence_boundary_chunk; audio_chunk [x01; x02];
                                 sentence_boundary_chunk];
                      ending := StreamRaises no_audio_received |}).
Proof.
  apply (other_kinds_are_invisible sample_runtime sample_argv _ _
           {| chunks := [sentence_boundary_chunk; audio_chunk [x01; x02];
                         sentence_boundary_chunk];
              ending := StreamRaises no_audio_received |}
           {| chunks := [audio_chunk [x01; x02]];
              ending := StreamRaises no_audio_received |}
           (fun _ => eq_refl) (fun _ => eq_refl));
    try reflexivity; repeat constructor.
Defined.

(** X10. How the collaborator cuts the audio into chunks, and how audio and
    word-boundary chunks interleave, cannot be seen in a successful run: two
    streams that complete with the same audio bytes overall and the same
    word-boundary chunks in the same order give the same run. *)
Theorem chunking_is_invisible rt argv edge_tts edge_tts' s s' :
  (forall kwargs, edge_tts kwargs = Ok s) ->
  (forall kwargs, edge_tts' kwargs = Ok s') ->
  completes s -> completes s' ->
  concat (map payload (filter is_audio (chunks s)))
  = concat (map payload (filter is_audio (chunks s'))) ->
  filter is_word_boundary (chunks s) = filter is_word_boundary (chunks s') ->
  main rt argv edge_tts = main rt argv edge_tts'.
Proof.
  intros He He' Hs Hs' Ha Hb. unfold main.
  destruct (Argparse.parse_args argv) as [args| |message]; try reflexivity.
  rewrite He, He'.
  destruct (try_block_same_content rt s s' Hs Hs' Ha Hb) as (line & -> & ->).
  reflexivity.
Qed.

Lemma chunking_is_invisible_witness :
  main sample_runtime sample_argv (fun _ => Ok sample_stream)
  = main sample_runtime sample_argv (fun _ => Ok resliced_stream).
Proof.
  apply (chunking_is_invisible sample_runtime sample_argv _ _
           sample_stream resliced_stream
           (fun _ => eq_refl) (fun _ => eq_refl));
    try reflexivity; split; try reflexivity; repeat constructor.
Defined.

(** X11. Unless help was requested, standard output holds ASCII characters
    only, whatever characters the chunks hold. *)
Theorem stdout_is_ascii rt argv edge_tts :
  has_help argv = false ->
  Forall ascii_code (stdout (main rt argv edge_tts)).
Proof.
  intros H. unfold main, parser_error, uncaught.
  destruct (Argparse.parse_args argv) as [args| |message] eqn:Hp.
  - destruct (edge_tts (communicate_kwargs args)) as [s|e]; [|constructor].
    destruct (try_block rt s) as [line|e] eqn:Ht; [|constructor].
    cbn [stdout]. apply Forall_app. split.
    + apply Forall_impl with (2 := try_block_printable rt s line Ht).
      unfold printable, ascii_code. intros c Hc. lia.
    + repeat constructor.
  - apply parse_args_help, help_requested_has_help in Hp. congruence.
  - constructor.
Qed.

Lemma stdout_is_ascii_witness :
  Forall ascii_code
    (stdout (main sample_runtime sample_argv (fun _ => Ok fancy_stream))).
Proof.
  exact (stdout_is_ascii sample_runtime sample_argv
           (fun _ => Ok fancy_stream) eq_refl).
Defined.

(** X12. No text is lost on the way: in a successful run, every string
    field of a word-boundary chunk made of Unicode scalar values is found in
    the entry of that chunk, under the same key, as UTF-16 code units that
    decode to the string. *)
Theorem text_survives rt argv args edge_tts s :
  Argparse.parse_args argv = Argparse.Args args ->
  edge_tts (communicate_kwargs args) = Ok s ->
  completes s ->
  exists line doc entries,
    stdout (main rt argv edge_tts) = line ++ newline
    /\ Json.loads line = Some doc
    /\ Json.field (u "boundaries") doc = Some (Json.JArray entries)
    /\ Forall2
         (fun chunk entry =>
            forall key t,
              dict_get chunk key = Some (PyStr t) ->
              Forall Json.scalar_value t ->
              exists w,
                In (Json.utf16 key, Json.JString w) (members entry)
                /\ Json.utf16_decode w = t)
         (filter is_word_boundary (chunks s)) entries.
Proof.
  intros Hp He Hc.
  destruct (successful_run rt argv args edge_tts s Hp He Hc)
    as (line & entries & Hmain & _ & Hloads & Hentries).
  eexists line, _, entries. rewrite Hmain. cbn [stdout].
  split; [reflexivity|]. split; [exact Hloads|]. split; [reflexivity|].
  apply Forall2_impl with (2 := Hentries).
  intros chunk entry (ms & -> & Hms) key t Hget Ht.
  destruct (member_of_field chunk ms key (PyStr t) Hms Hget) as (j & Hin & Hj).
  cbn in Hj. subst j.
  exists (Json.utf16 t). split; [exact Hin|].
  now apply JsonFacts.utf16_decode_utf16.
Qed.

Lemma text_survives_witness :
  completes fancy_stream
  /\ exists line doc entries,
       stdout (main sample_runtime sample_argv (fun _ => Ok fancy_stream))
       = line ++ newline
       /\ Json.loads line = Some doc
       /\ Json.field (u "boundaries") doc = Some (Json.JArray entries)
       /\ Forall2
            (fun chunk entry =>
               forall key t,
                 dict_get chunk key = Some (PyStr t) ->
                 Forall Json.scalar_value t ->
                 exists w,
                   In (Json.utf16 key, Json.JString w) (members entry)
                   /\ Json.utf16_decode w = t)
            [word_boundary_chunk 0 500000 fancy_text] entries.
Proof.
  assert (H : completes fancy_stream)
    by (split; [reflexivity | repeat constructor]).
  split; [exact H|].
  exact (text_survives sample_runtime sample_argv sample_args
           (fun _ => Ok fancy_stream) fancy_stream eq_refl eq_refl H).
Defined.

(** X13. The base64 text of [n] bytes has [4 * ceil(n / 3)] characters. *)
Theorem b64encode_length bs :
  List.length (Base64.b64encode bs) = (4 * ((List.length bs + 2) / 3))%nat.
Proof.
  induction bs as [|a|a b|a b c l IH] using Base64Facts.list_ind3.
  - reflexivity.
  - reflexivity.
  - reflexivity.
  - cbn [Base64.b64encode List.length]. rewrite IH.
    replace (S (S (S (List.length l))) + 2)%nat
      with (List.length l + 2 + 1 * 3)%nat by lia.
    rewrite Nat.div_add by discriminate. lia.
Qed.

(** X14. Base64 text needs no escaping: in the emitted line the [audio]
    string is the base64 text itself between two quotes. *)
Theorem audio_text_is_verbatim bs :
  Json.encode (Json.JString (Base64.b64encode bs))
  = [34] ++ Base64.b64encode bs ++ [34].
Proof.
  cbn [Json.encode]. unfold Json.encode_basestring_ascii.
  rewrite flat_map_plain; [reflexivity|].
  apply Forall_impl with (2 := b64encode_in_alphabet bs).
  intros c Hc. now apply b64_plain.
Qed.

(** X15. Whatever document the encoder writes, a reader of JSON reads that
    document back from the text, with its strings as UTF-16 code units. *)
Theorem written_document_reads_back j :
  Json.loads (Json.encode j) = Some (Json.utf16_json j).
Proof.
  rewrite <- (List.app_nil_r (Json.encode j)).
  now apply JsonFacts.loads_encode.
Qed.

(** X16. The exit status is 2 exactly when help is not what the parser
    ends on and the command line holds an ambiguous option string, an
    option without its value, a help request with a value, no [--text], or
    an argument no option accounts for. *)
Theorem exit_status_two rt argv edge_tts :
  exit_code (main rt argv edge_tts) = 2%Z
  <-> (help_requested argv = false
       /\ (Argparse.ambiguous argv <> None
           \/ first_stop argv <> None
           \/ given Argparse.opt_text argv = []
           \/ unrecognized argv <> [])).
Proof.
  unfold main, parser_error, uncaught, help_requested.
  rewrite parse_args_cases.
  destruct (Argparse.ambiguous argv) as [arg|].
  - cbn [exit_code]. split; [|reflexivity].
    intros _. split; [reflexivity | left; discriminate].
  - destruct (first_stop argv) as [[|o|shown]|].
    + cbn [exit_code]. split; [discriminate | intros [H _]; discriminate].
    + cbn [exit_code]. split; [|reflexivity].
      intros _. split; [reflexivity | right; left; discriminate].
    + cbn [exit_code]. split; [|reflexivity].
      intros _. split; [reflexivity | right; left; discriminate].
    + destruct (given Argparse.opt_text argv) as [|x l].
      * cbn [exit_code]. split; [|reflexivity]. auto.
      * destruct (unrecognized argv) as [|a extras].
        -- split.
           ++ destruct (edge_tts _) as [s|e]; [destruct (try_block rt s)|];
                discriminate.
           ++ intros [_ [H|[H|[H|H]]]];
                solve [discriminate | now contradiction H].
        -- cbn [exit_code]. split; [|reflexivity].
           intros _. split; [reflexivity | right; right; right; discriminate].
Qed.

(** X17. The exit status is 0 exactly when help is what the parser ends
    on, or the command line parsed, the constructor returned, and the
    stream drained to normal completion. *)
Theorem exit_status_zero rt argv edge_tts :
  exit_code (main rt argv edge_tts) = 0%Z
  <-> (help_requested argv = true
       \/ exists args s,
            Argparse.parse_args argv = Argparse.Args args
            /\ edge_tts (communicate_kwargs args) = Ok s
            /\ completes s).
Proof.
  split.
  - intros H. unfold main, parser_error, uncaught in H.
    destruct (Argparse.parse_args argv) as [args| |message] eqn:Hp.
    + right.
      destruct (edge_tts (communicate_kwargs args)) as [s|e] eqn:He;
        [|discriminate].
      destruct (try_block rt s) as [line|e] eqn:Ht; [|discriminate].
      exists args, s. split; [reflexivity|]. split; [assumption|].
      now apply try_block_ok_completes with rt line.
    + left. now apply parse_args_help.
    + discriminate.
  - intros [H|(args & s & Hp & He & Hc)].
    + apply parse_args_help in H. unfold main. now rewrite H.
    + destruct (try_block_completes rt s Hc) as [line Ht].
      now rewrite (main_ok rt argv args edge_tts s line Hp He Ht).
Qed.

(** X18. The exit status is 1 exactly when the command line parsed and
    then either the [Communicate] constructor raised or the stream did not
    drain to normal completion. *)
Theorem exit_status_one rt argv edge_tts :
  exit_code (main rt argv edge_tts) = 1%Z
  <-> exists args,
        Argparse.parse_args argv = Argparse.Args args
        /\ ((exists e, edge_tts (communicate_kwargs args) = Raise e)
            \/ (exists s, edge_tts (communicate_kwargs args) = Ok s
                          /\ ~ completes s)).
Proof.
  unfold main, parser_error, uncaught.
  destruct (Argparse.parse_args argv) as [args| |message].
  - destruct (edge_tts (communicate_kwargs args)) as [s|e] eqn:He.
    + destruct (try_block rt s) as [line|e] eqn:Ht; cbn [exit_code].
      * split; [discriminate|].
        intros (args' & Hp & [[e H]|(s' & H & Hn)]);
          injection Hp as Hp; subst args'; rewrite He in H.
        -- discriminate.
        -- injection H as H. subst s'. contradiction Hn.
           now apply try_block_ok_completes with rt line.
      * split; [|reflexivity]. intros _.
        exists args. split; [reflexivity|]. right. exists s.
        split; [assumption|]. intros Hc.
        destruct (try_block_completes rt s Hc) as [line Hl]. congruence.
    + cbn [exit_code]. split; [|reflexivity]. intros _.
      exists args. split; [reflexivity|]. left. exists e. assumption.
  - cbn [exit_code]. split; [discriminate | intros (args & H & _); discriminate].
  - cbn [exit_code]. split; [discriminate | intros (args & H & _); discriminate].
Qed.

(** X19. Draining two chunk sequences one after the other is draining the
    first to its end and then the second from the accumulators the first
    left; a fault in the first part ends the loop before the second is
    looked at. *)
Theorem drain_composes rt acc first second fin :
  async_for rt acc (first ++ second) fin
  = bind (async_for rt acc first StopAsyncIteration)
         (fun acc' => async_for rt acc' second fin).
Proof.
  apply async_for_app.
Qed.


(** X20. A command line the parser cannot read ends the run with status
    2, the usage text and one line that names the fault on standard error,
    and nothing on standard output; the collaborator is not contacted.
    This holds of an ambiguous option string anywhere and, failing that,
    of an option without its value or a help request with a value that
    comes before any help request. *)
Theorem malformed_options_are_rejected rt argv edge_tts message :
  (exists arg,
     Argparse.ambiguous argv = Some arg
     /\ message = u "ambiguous option: " ++ arg
                  ++ u " could match --help, --text, --voice, --rate, --pitch")
  \/ (Argparse.ambiguous argv = None
      /\ exists o,
           first_stop argv = Some (StopMissing o)
           /\ message = u "argument " ++ Argparse.option_name o
                        ++ u ": expected one argument")
  \/ (Argparse.ambiguous argv = None
      /\ exists shown,
           first_stop argv = Some (StopIgnored shown)
           /\ message = u "argument -h/--help: ignored explicit argument "
                        ++ shown) ->
  main rt argv edge_tts
  = {| stdout := [];
       stderr := format_usage rt ++ prog rt ++ u ": error: " ++ message
                 ++ newline;
       exit_code := 2 |}.
Proof.
  unfold main. rewrite parse_args_cases.
  intros [(arg & Ha & ->)|[(Ha & o & Hs & ->)|(Ha & shown & Hs & ->)]];
    rewrite Ha; try rewrite Hs; reflexivity.
Qed.

Lemma malformed_options_are_rejected_witness :
  main sample_runtime
    [Argparse.Given Argparse.opt_text (u "Hi");
     Argparse.MissingValue Argparse.opt_rate;
     Argparse.HelpFlag]
    sample_collaborator
  = {| stdout := [];
       stderr := format_usage sample_runtime ++ prog sample_runtime
                 ++ u ": error: "
                 ++ u "argument --rate: expected one argument"
                 ++ newline;
       exit_code := 2 |}.
Proof.
  apply (malformed_options_are_rejected sample_runtime
           [Argparse.Given Argparse.opt_text (u "Hi");
            Argparse.MissingValue Argparse.opt_rate;
            Argparse.HelpFlag]
           sample_collaborator
           (u "argument --rate: expected one argument")).
  right. left. split; [reflexivity|].
  exists Argparse.opt_rate. split; reflexivity.
Defined.
